(** * Spotify Quiz: the game-session engine of [game.py] and [server.py]

    A shallow embedding of the Python classes [Game] (game.py), [Server]
    and [Receiver] (server.py) with the constants of conf.py, and of
    [Cover.index_to_pos] (gui.py), and the properties of the engine proved
    over that embedding.

    Modelling conventions.
    - A Python [float] carrying a finite value is a rational [Q]; [int(x)]
      truncates toward zero.
    - A connected client (a Twisted [Receiver] object, compared by
      identity) is a natural number.
    - A method that mutates [self] is a computation in a state-and-exception
      monad over the object; the state reached before an exception is raised
      is kept, as Python keeps it.
    - [random.choice] and [random.shuffle] draw from a sequence
      [rng : nat -> nat]; the position of the next draw is part of the
      world.
    - [client.send(d)] appends to an outbox; [reactor.callLater] appends a
      delayed call to [callbacks], and a timer that fires is an event.
    - Recursion and [while True] take a fuel argument; running out of fuel is
      the outcome [Diverge].
    - Log lines are not modelled, except for the attribute reads and method
      calls their arguments perform. *)

From stdpp Require Import gmap strings list fin_maps.
From Stdlib Require Import QArith Qround Sorted.

Local Open Scope Z_scope.
Local Open Scope nat_scope.

(** ** conf.py *)

Definition MIN_PLAYERS : nat := 1.
Definition MAX_PLAYERS : nat := 3.
Definition ROUND_TIME : Z := 10.
Definition INTERMISSION_TIMEOUT : Z := 3.
Definition NUMBER_OF_ALTERNATIVES : nat := 4.
Definition POINTS : list Z := [89; 55; 34; 21; 13; 8; 5; 3; 2; 1]%Z.

(** ** Python values and exceptions *)

Inductive exn : Set :=
| AssertionError
| AttributeError
| IndexError
| KeyError
| ValueError.

(** The result of a pure expression that may raise. *)
Inductive res (A : Type) : Type :=
| Val (a : A)
| Exc (e : exn).
Arguments Val {A} a.
Arguments Exc {A} e.

(** [int(x)] on a float: truncation toward zero. *)
Definition py_int (x : Q) : Z := Z.quot (Qnum x) (Zpos (Qden x)).

(** [seq[i]] on a tuple or list: a negative index counts from the end, and
    an index outside [-len, len) raises [IndexError]. *)
Definition py_getitem {A} (l : list A) (i : Z) : res A :=
  let n := Z.of_nat (length l) in
  let j := if (i <? 0)%Z then (n + i)%Z else i in
  if (j <? 0)%Z then Exc IndexError
  else match l !! Z.to_nat j with
       | Some a => Val a
       | None => Exc IndexError
       end.

(** [not x] on [None] or a string. *)
Definition falsy (x : option string) : bool :=
  match x with
  | None => true
  | Some s => bool_decide (s = "")
  end.

(** [list.remove(x)]: drops the first occurrence, [ValueError] when there is
    none. *)
Fixpoint list_remove_first {A} `{EqDecision A} (x : A) (l : list A) : res (list A) :=
  match l with
  | [] => Exc ValueError
  | y :: l' =>
      if decide (x = y) then Val l'
      else match list_remove_first x l' with
           | Val r => Val (y :: r)
           | Exc e => Exc e
           end
  end.

(** ** Data of a game *)

Definition Client : Type := nat.

(** A track is the tuple [(spotify_uri, artist, title)]. *)
Definition Track : Type := string * string * string.
Definition uri (t : Track) : string := t.1.1.
Definition artist (t : Track) : string := t.1.2.
Definition title (t : Track) : string := t.2.

(** An answer is the tuple [(username, answer, time)]. *)
Definition Answer : Type := string * Z * Q.
Definition a_username (a : Answer) : string := a.1.1.
Definition a_answer (a : Answer) : Z := a.1.2.
Definition a_time (a : Answer) : Q := a.2.

Inductive Message : Type :=
| MsgStartRound (spotify_uri : string) (choices : list Track) (round : nat)
| MsgEndRound (winner : option string) (score : list (string * Z))
| MsgIntermission (timeout : Z) (enough_players enough_tracks : bool).

(** ** The world and the monad *)

(** The object under execution together with the process-wide state the
    methods touch: the position in the random sequence and the messages sent
    so far (oldest first). *)
Record World (S : Type) : Type := {
  st : S;
  rpos : nat;
  outbox : list (Client * Message)
}.
Arguments st {S} w.
Arguments rpos {S} w.
Arguments outbox {S} w.
Arguments Build_World {S} st rpos outbox.

Inductive outcome (S A : Type) : Type :=
| Ok (a : A) (w : World S)
| Raise (e : exn) (w : World S)
| Diverge.
Arguments Ok {S A} a w.
Arguments Raise {S A} e w.
Arguments Diverge {S A}.

Definition M (S A : Type) : Type := World S → outcome S A.

Definition ret {S A} (a : A) : M S A := λ w, Ok a w.
Definition bind {S A B} (m : M S A) (k : A → M S B) : M S B :=
  λ w, match m w with
       | Ok a w' => k a w'
       | Raise e w' => Raise e w'
       | Diverge => Diverge
       end.
Definition raise {S A} (e : exn) : M S A := λ w, Raise e w.
Definition diverge {S A} : M S A := λ _, Diverge.
Definition get {S} : M S S := λ w, Ok (st w) w.
Definition modify {S} (f : S → S) : M S unit :=
  λ w, Ok tt (Build_World (f (st w)) (rpos w) (outbox w)).
Definition send {S} (c : Client) (d : Message) : M S unit :=
  λ w, Ok tt (Build_World (st w) (rpos w) (outbox w ++ [(c, d)])).
Definition lift_res {S A} (r : res A) : M S A :=
  match r with
  | Val a => ret a
  | Exc e => raise e
  end.
Definition py_assert {S} (b : bool) : M S unit :=
  if b then ret tt else raise AssertionError.

(** The monad operations behind stdpp's [x ← m; k] and [m;; k]. *)
#[export] Instance M_ret {S} : MRet (M S) := λ A a, ret a.
#[export] Instance M_bind {S} : MBind (M S) := λ A B k m, bind m k.

(** ** game.py *)

Module game.

(** The methods handed to [reactor.callLater]. *)
Inductive Callback : Set :=
| CbStartRound
| CbRoundTimedout.

(** A Twisted [DelayedCall]; [active()] is false once it has been cancelled
    or called. *)
Record DelayedCall : Type := {
  dc_delay : Z;
  dc_func : Callback;
  dc_active : bool
}.

Record Game : Type := {
  id : nat;
  clients : list Client;
  waiting : list Client;
  users : gmap Client string;
  score : list (string * Z);
  round : nat;
  used_tracks : list Track;
  all_tracks : list Track;
  is_running : bool;
  choices : list Track;
  answers : list Answer;
  callbacks : list DelayedCall;
  (* [correct_answer] is not set by [__init__]: [None] is the missing attribute *)
  correct_answer : option nat
}.

Definition set_clients (v : list Client) (g : Game) : Game :=
  {| id := id g; clients := v; waiting := waiting g; users := users g;
     score := score g; round := round g; used_tracks := used_tracks g;
     all_tracks := all_tracks g; is_running := is_running g;
     choices := choices g; answers := answers g; callbacks := callbacks g;
     correct_answer := correct_answer g |}.
Definition set_waiting (v : list Client) (g : Game) : Game :=
  {| id := id g; clients := clients g; waiting := v; users := users g;
     score := score g; round := round g; used_tracks := used_tracks g;
     all_tracks := all_tracks g; is_running := is_running g;
     choices := choices g; answers := answers g; callbacks := callbacks g;
     correct_answer := correct_answer g |}.
Definition set_users (v : gmap Client string) (g : Game) : Game :=
  {| id := id g; clients := clients g; waiting := waiting g; users := v;
     score := score g; round := round g; used_tracks := used_tracks g;
     all_tracks := all_tracks g; is_running := is_running g;
     choices := choices g; answers := answers g; callbacks := callbacks g;
     correct_answer := correct_answer g |}.
Definition set_score (v : list (string * Z)) (g : Game) : Game :=
  {| id := id g; clients := clients g; waiting := waiting g; users := users g;
     score := v; round := round g; used_tracks := used_tracks g;
     all_tracks := all_tracks g; is_running := is_running g;
     choices := choices g; answers := answers g; callbacks := callbacks g;
     correct_answer := correct_answer g |}.
Definition set_round (v : nat) (g : Game) : Game :=
  {| id := id g; clients := clients g; waiting := waiting g; users := users g;
     score := score g; round := v; used_tracks := used_tracks g;
     all_tracks := all_tracks g; is_running := is_running g;
     choices := choices g; answers := answers g; callbacks := callbacks g;
     correct_answer := correct_answer g |}.
Definition set_used_tracks (v : list Track) (g : Game) : Game :=
  {| id := id g; clients := clients g; waiting := waiting g; users := users g;
     score := score g; round := round g; used_tracks := v;
     all_tracks := all_tracks g; is_running := is_running g;
     choices := choices g; answers := answers g; callbacks := callbacks g;
     correct_answer := correct_answer g |}.
Definition set_all_tracks (v : list Track) (g : Game) : Game :=
  {| id := id g; clients := clients g; waiting := waiting g; users := users g;
     score := score g; round := round g; used_tracks := used_tracks g;
     all_tracks := v; is_running := is_running g;
     choices := choices g; answers := answers g; callbacks := callbacks g;
     correct_answer := correct_answer g |}.
Definition set_is_running (v : bool) (g : Game) : Game :=
  {| id := id g; clients := clients g; waiting := waiting g; users := users g;
     score := score g; round := round g; used_tracks := used_tracks g;
     all_tracks := all_tracks g; is_running := v;
     choices := choices g; answers := answers g; callbacks := callbacks g;
     correct_answer := correct_answer g |}.
Definition set_choices (v : list Track) (g : Game) : Game :=
  {| id := id g; clients := clients g; waiting := waiting g; users := users g;
     score := score g; round := round g; used_tracks := used_tracks g;
     all_tracks := all_tracks g; is_running := is_running g;
     choices := v; answers := answers g; callbacks := callbacks g;
     correct_answer := correct_answer g |}.
Definition set_answers (v : list Answer) (g : Game) : Game :=
  {| id := id g; clients := clients g; waiting := waiting g; users := users g;
     score := score g; round := round g; used_tracks := used_tracks g;
     all_tracks := all_tracks g; is_running := is_running g;
     choices := choices g; answers := v; callbacks := callbacks g;
     correct_answer := correct_answer g |}.
Definition set_callbacks (v : list DelayedCall) (g : Game) : Game :=
  {| id := id g; clients := clients g; waiting := waiting g; users := users g;
     score := score g; round := round g; used_tracks := used_tracks g;
     all_tracks := all_tracks g; is_running := is_running g;
     choices := choices g; answers := answers g; callbacks := v;
     correct_answer := correct_answer g |}.
Definition set_correct_answer (v : option nat) (g : Game) : Game :=
  {| id := id g; clients := clients g; waiting := waiting g; users := users g;
     score := score g; round := round g; used_tracks := used_tracks g;
     all_tracks := all_tracks g; is_running := is_running g;
     choices := choices g; answers := answers g; callbacks := callbacks g;
     correct_answer := v |}.


(** [Game.time_to_points], game.py:246-258. *)
Definition time_to_points (time : Q) : res Z :=
  let time := py_int time in
  if (Z.of_nat (length POINTS) <? time)%Z then Val 0%Z
  else py_getitem POINTS time.


(** [sorted(l, key = operator.itemgetter(2))]: a stable sort by time. *)
Fixpoint insert_by_time (a : Answer) (l : list Answer) : list Answer :=
  match l with
  | [] => [a]
  | b :: l' =>
      if Qle_bool (a_time a) (a_time b) then a :: b :: l'
      else b :: insert_by_time a l'
  end.
Definition sorted_by_time (l : list Answer) : list Answer :=
  foldr insert_by_time [] l.

(** [x[i], x[j] = x[j], x[i]] *)
Definition swap {A} (x : list A) (i j : nat) : list A :=
  match x !! i, x !! j with
  | Some a, Some b => <[j:=a]> (<[i:=b]> x)
  | _, _ => x
  end.

Definition enough_players (g : Game) : bool :=
  bool_decide (MIN_PLAYERS ≤ length (clients g)).
Definition enough_tracks (g : Game) : bool :=
  bool_decide (NUMBER_OF_ALTERNATIVES ≤ length (all_tracks g)).
Definition is_full (g : Game) : bool :=
  bool_decide (MAX_PLAYERS ≤ length (clients g) + length (waiting g)).
Definition can_start (g : Game) : bool :=
  enough_players g && enough_tracks g && negb (is_running g).

(** [Game.notify_clients]: [client.send(d)] for every client in [clients]. *)
Definition notify_clients (d : Message) : M Game unit :=
  g ← get;
  foldr (λ c k, send c d;; k) (ret tt) (clients g).

(** [Game.stop_callbacks]: cancels every call that is still active. *)
Definition stop_callbacks : M Game unit :=
  modify (λ g, set_callbacks
    ((λ c, {| dc_delay := dc_delay c; dc_func := dc_func c; dc_active := false |})
       <$> callbacks g) g).
Definition cancel_intermission : M Game unit := stop_callbacks.

(** [self.callbacks.append(reactor.callLater(delay, f))] *)
Definition call_later (delay : Z) (f : Callback) : M Game unit :=
  modify (λ g, set_callbacks
    (callbacks g ++ [{| dc_delay := delay; dc_func := f; dc_active := true |}]) g).

(** [Game.intermission], game.py:180-197; [timeout] is [None] or a number. *)
Definition intermission (timeout : option Z) : M Game unit :=
  let timeout :=
    match timeout with
    | Some t => if (t =? 0)%Z then INTERMISSION_TIMEOUT else t
    | None => INTERMISSION_TIMEOUT
    end in
  g ← get;
  notify_clients (MsgIntermission timeout (enough_players g) (enough_tracks g));;
  stop_callbacks;;
  call_later timeout CbStartRound.

(** [Game.available_tracks], game.py:210-221; the recursive call consumes
    one unit of fuel. *)
Fixpoint available_tracks (fuel : nat) : M Game (gset Track) :=
  match fuel with
  | 0 => diverge
  | S fuel' =>
      g ← get;
      py_assert (negb (length (all_tracks g) =? 0));;
      let tracks : gset Track :=
        list_to_set (all_tracks g) ∖ list_to_set (used_tracks g) in
      if (size tracks =? 0) || (size tracks <? NUMBER_OF_ALTERNATIVES) then
        modify (set_used_tracks []);;
        available_tracks fuel'
      else ret tracks
  end.

(** [Game.join_players], game.py:265-268. *)
Definition join_players : M Game unit :=
  modify (λ g, set_clients (clients g ++ waiting g) g);;
  modify (set_waiting []).

(** [Game.add_tracks], game.py:93-97. *)
Definition add_tracks (client : Client) (tracks : list Track) : M Game unit :=
  foldr (λ t k,
           g ← get;
           (if bool_decide (t ∈ all_tracks g) then ret tt
            else modify (set_all_tracks (all_tracks g ++ [t])));;
           k)
        (ret tt) tracks.

(** The loop of [Game.end_round] over the correct answers: the winner so
    far is threaded through, the points are appended to [score]. *)
Fixpoint end_round_loop (correct_answers : list Answer) (winner : option string)
    : M Game (option string) :=
  match correct_answers with
  | [] => ret winner
  | a :: rest =>
      let winner := if falsy winner then Some (a_username a) else winner in
      points ← lift_res (time_to_points (a_time a));
      modify (λ g, set_score (score g ++ [(a_username a, points)]) g);;
      end_round_loop rest winner
  end.

(** [filter(lambda a: a[1] == self.correct_answer, answers)]: the lambda
    reads the attribute once per element. *)
Definition filter_correct (answers : list Answer) : M Game (list Answer) :=
  match answers with
  | [] => ret []
  | _ :: _ =>
      g ← get;
      match correct_answer g with
      | None => raise AttributeError
      | Some k => ret (filter (λ a, a_answer a = Z.of_nat k) answers)
      end
  end.

(** [Game.end_round], game.py:155-178. *)
Definition end_round : M Game unit :=
  modify (set_is_running false);;
  stop_callbacks;;
  g ← get;
  let answers := sorted_by_time (answers g) in
  modify (set_answers []);;
  correct_answers ← filter_correct answers;
  winner ← end_round_loop correct_answers None;
  g ← get;
  notify_clients (MsgEndRound winner (score g));;
  intermission None.

(** [Game.round_timedout], game.py:260-263. *)
Definition round_timedout : M Game unit := end_round.

(** [Game.received_answer], game.py:270-288. *)
Definition received_answer (client : Client) (answer : Z) (time : Q) : M Game unit :=
  g ← get;
  if negb (is_running g) then ret tt
  else
    match users g !! client with
    | None => raise KeyError
    | Some username =>
        if bool_decide (filter (λ a, a_username a = username) (answers g) ≠ []) then ret tt
        else
          modify (λ g, set_answers (answers g ++ [(username, answer, time)]) g);;
          g ← get;
          if length (answers g) =? length (clients g) then end_round
          else ret tt
    end.

(** [Game.remove_client], game.py:79-91. *)
Definition remove_client (client : Client) : M Game unit :=
  g ← get;
  clients' ← lift_res (list_remove_first client (clients g));
  modify (set_clients clients');;
  match users g !! client with
  | None => raise KeyError
  | Some username =>
      modify (λ g, set_users (delete client (users g)) g);;
      modify (λ g, set_score (filter (λ s, s.1 ≠ username) (score g)) g);;
      g ← get;
      if negb (enough_players g) && is_running g then end_round
      else ret tt
  end.

Section Random.

(** The sequence the random module draws from. *)
Variable rng : nat → nat.

(** One draw below [n], as [int(random() * n)]. *)
Definition randbelow {St} (n : nat) : M St nat :=
  λ w, Ok (rng (rpos w) `mod` n) (Build_World (st w) (S (rpos w)) (outbox w)).

(** [random.choice(seq)]: [seq[int(random() * len(seq))]]. *)
Definition random_choice {St A} (seq : list A) : M St A :=
  i ← randbelow (length seq);
  match seq !! i with
  | Some a => ret a
  | None => raise IndexError
  end.

(** [random.shuffle(x)]:
    [for i in reversed(xrange(1, len(x))): j = int(random() * (i+1)); swap]. *)
Fixpoint shuffle_from {St A} (i : nat) (x : list A) : M St (list A) :=
  match i with
  | 0 => ret x
  | S i' =>
      j ← randbelow (S i);
      shuffle_from i' (swap x i j)
  end.
Definition random_shuffle {St A} (x : list A) : M St (list A) :=
  shuffle_from (length x - 1) x.

(** [Game.select_track], game.py:206-208. *)
Definition select_track (fuel : nat) : M Game Track :=
  tracks ← available_tracks fuel;
  random_choice (elements tracks).

(** The [while True] loop of [Game.generate_choices]; one iteration consumes
    one unit of fuel. *)
Fixpoint generate_choices_loop (fuel : nat) (tracks : list Track) : M Game (list Track) :=
  match fuel with
  | 0 => diverge
  | S fuel' =>
      if length tracks =? NUMBER_OF_ALTERNATIVES then ret tracks
      else
        avail ← available_tracks fuel;
        track ← random_choice (elements avail);
        if bool_decide (track ∈ tracks) then generate_choices_loop fuel' tracks
        else if bool_decide (filter (λ t, artist t = artist track) tracks ≠ [])
        then generate_choices_loop fuel' tracks
        else generate_choices_loop fuel' (tracks ++ [track])
  end.

(** [Game.generate_choices], game.py:223-244. *)
Definition generate_choices (fuel : nat) (track : Track) : M Game (list Track) :=
  avail ← available_tracks fuel;
  py_assert (NUMBER_OF_ALTERNATIVES <=? size avail);;
  tracks ← generate_choices_loop fuel [track];
  random_shuffle tracks.

(** [for i, t in enumerate(self.choices): if track == t: self.correct_answer = i] *)
Definition find_correct (track : Track) (choices : list Track) (old : option nat)
    : option nat :=
  foldl (λ acc it, if bool_decide (track = it.2) then Some it.1 else acc)
        old (imap (λ i t, (i, t)) choices).

(** [Game.start_round], game.py:113-153. *)
Definition start_round (fuel : nat) : M Game unit :=
  g ← get;
  py_assert (negb (is_running g));;
  if negb (can_start g) then intermission None
  else
    cancel_intermission;;
    modify (λ g, set_round (round g + 1) g);;
    join_players;;
    (* the log line evaluates [len(self.available_tracks())] *)
    _ ← available_tracks fuel;
    modify (set_is_running true);;
    track ← select_track fuel;
    modify (λ g, set_used_tracks (used_tracks g ++ [track]) g);;
    chs ← generate_choices fuel track;
    modify (set_choices chs);;
    modify (λ g, set_correct_answer (find_correct track chs (correct_answer g)) g);;
    g ← get;
    (* the log line reads [self.correct_answer] *)
    (if correct_answer g is None then raise AttributeError else ret tt);;
    notify_clients (MsgStartRound (uri track) (choices g) (round g));;
    call_later ROUND_TIME CbRoundTimedout.

(** [Game.add_client], game.py:60-77; [args['username']] is [username]. *)
Definition add_client (fuel : nat) (client : Client) (username : string) : M Game bool :=
  g ← get;
  if is_full g then ret false
  else
    modify (λ g, set_users (<[client:=username]> (users g)) g);;
    (if is_running g then
       modify (λ g, set_waiting (waiting g ++ [client]) g)
     else
       modify (λ g, set_clients (clients g ++ [client]) g);;
       g ← get;
       if can_start g then start_round fuel else ret tt);;
    ret true.

End Random.

(** [Game.__init__], game.py:32-51: the fields, then [self.intermission()]. *)
Definition blank (identification : nat) : Game :=
  {| id := identification; clients := []; waiting := []; users := ∅;
     score := []; round := 0; used_tracks := []; all_tracks := [];
     is_running := false; choices := []; answers := []; callbacks := [];
     correct_answer := None |}.

(** [Game(identification)] called from a method of another object: the
    constructor runs on the new object and shares the random position and
    the outbox. *)
Definition Game_new {St} (identification : nat) : M St Game :=
  λ w, match intermission None (Build_World (blank identification) (rpos w) (outbox w)) with
       | Ok _ w' => Ok (st w') (Build_World (st w) (rpos w') (outbox w'))
       | Raise e w' => Raise e (Build_World (st w) (rpos w') (outbox w'))
       | Diverge => Diverge
       end.

(** *** What can happen to a game *)

(** The calls a game receives from the server, and its own timers: [EvTimer i]
    is the reactor running [callbacks[i]] once its delay has elapsed. *)
Inductive Event : Type :=
| EvAddClient (client : Client) (username : string)
| EvRemoveClient (client : Client)
| EvAddTracks (client : Client) (tracks : list Track)
| EvAnswer (client : Client) (answer : Z) (time : Q)
| EvTimer (i : nat).

Definition fire (rng : nat → nat) (fuel : nat) (i : nat) : M Game unit :=
  g ← get;
  match callbacks g !! i with
  | Some dc =>
      if dc_active dc then
        modify (set_callbacks
          (<[i := {| dc_delay := dc_delay dc; dc_func := dc_func dc; dc_active := false |}]>
             (callbacks g)));;
        match dc_func dc with
        | CbStartRound => start_round rng fuel
        | CbRoundTimedout => round_timedout
        end
      else ret tt
  | None => ret tt
  end.

Definition handle (rng : nat → nat) (fuel : nat) (ev : Event) : M Game unit :=
  match ev with
  | EvAddClient client username => add_client rng fuel client username;; ret tt
  | EvRemoveClient client => remove_client client
  | EvAddTracks client tracks => add_tracks client tracks
  | EvAnswer client answer time => received_answer client answer time
  | EvTimer i => fire rng fuel i
  end.

(** A freshly constructed game, with the random sequence at position [n]. *)
Definition init (identification n : nat) : World Game :=
  match Game_new identification (Build_World tt n []) with
  | Ok g w => Build_World g (rpos w) (outbox w)
  | _ => Build_World (blank identification) n []
  end.

(** The worlds a game can be in: the state after an exception is kept (the
    reactor logs the error and goes on); a call that does not return has
    no successor. *)
Inductive reachable (rng : nat → nat) : World Game → Prop :=
| reach_init identification n : reachable rng (init identification n)
| reach_ok w ev fuel w' :
    reachable rng w → handle rng fuel ev w = Ok tt w' → reachable rng w'
| reach_raise w ev fuel e w' :
    reachable rng w → handle rng fuel ev w = Raise e w' → reachable rng w'.

(** The worlds reached by running a list of events in order. *)
Fixpoint run (rng : nat → nat) (fuel : nat) (evs : list Event) (w : World Game)
    : option (World Game) :=
  match evs with
  | [] => Some w
  | ev :: evs' =>
      match handle rng fuel ev w with
      | Ok _ w' => run rng fuel evs' w'
      | Raise _ w' => run rng fuel evs' w'
      | Diverge => None
      end
  end.

End game.

(** ** server.py *)

Module server.

Record Server : Type := {
  games : list game.Game;
  clients : gmap Client nat  (* client -> index into games list *)
}.

Definition set_games (v : list game.Game) (s : Server) : Server :=
  {| games := v; clients := clients s |}.
Definition set_clients (v : gmap Client nat) (s : Server) : Server :=
  {| games := games s; clients := v |}.

(** [Server.__init__], server.py:44-46. *)
Definition new : Server := {| games := []; clients := ∅ |}.

(** A method call on [self.games[i]]: the game object is mutated in place,
    also when the call raises. *)
Definition at_game {A} (i : nat) (m : M game.Game A) : M Server A :=
  λ w, match games (st w) !! i with
       | None => Raise IndexError w
       | Some g =>
           let back (w' : World game.Game) :=
             Build_World (set_games (<[i := st w']> (games (st w))) (st w))
                         (rpos w') (outbox w') in
           match m (Build_World g (rpos w) (outbox w)) with
           | Ok a w' => Ok a (back w')
           | Raise e w' => Raise e (back w')
           | Diverge => Diverge
           end
       end.

(** [self.clients[client]], [KeyError] when the client is not a key. *)
Definition game_of (client : Client) : M Server nat :=
  s ← get;
  match clients s !! client with
  | Some i => ret i
  | None => raise KeyError
  end.

Section Random.

Variable rng : nat → nat.

(** [Server.join_game], server.py:69-78, on the game at index [i];
    [self.games.index(game)] finds the object itself. *)
Definition join_game (fuel : nat) (i : nat) (client : Client) (username : string)
    : M Server Z :=
  ok ← at_game i (game.add_client rng fuel client username);
  if negb ok then ret (-1)%Z
  else
    modify (λ s, set_clients (<[client := i]> (clients s)) s);;
    ret (Z.of_nat i).

(** The [for g in available_games] loop of [Server.add_client]. *)
Fixpoint join_first (fuel : nat) (available_games : list nat) (client : Client)
    (username : string) : M Server unit :=
  match available_games with
  | [] => ret tt
  | i :: rest =>
      game_id ← join_game fuel i client username;
      if bool_decide (game_id ≠ (-1)%Z) then ret tt
      else join_first fuel rest client username
  end.

(** [Server.get_next_game_id], server.py:80-81. *)
Definition get_next_game_id (s : Server) : nat := length (games s).

(** [Server.add_client], server.py:48-67; the recursive call consumes one
    unit of fuel. *)
Fixpoint add_client (fuel : nat) (client : Client) (username : string) : M Server unit :=
  match fuel with
  | 0 => diverge
  | S fuel' =>
      s ← get;
      let available_games :=
        (filter (λ ig, game.is_full ig.2 = false)
                (imap (λ i g, (i, g)) (games s))).*1 in
      match available_games with
      | _ :: _ => join_first fuel' available_games client username
      | [] =>
          new_game ← game.Game_new (get_next_game_id s);
          modify (λ s, set_games (games s ++ [new_game]) s);;
          add_client fuel' client username
      end
  end.

End Random.

(** [Server.client_disconnected], server.py:83-87. *)
Definition client_disconnected (client : Client) : M Server unit :=
  i ← game_of client;
  at_game i (game.remove_client client);;
  modify (λ s, set_clients (delete client (clients s)) s).

(** [Server.received_answer], server.py:89-94. *)
Definition received_answer (client : Client) (answer : Z) (time : Q) : M Server unit :=
  i ← game_of client;
  at_game i (game.received_answer client answer time).

(** [Server.add_tracks], server.py:96-102. *)
Definition add_tracks (client : Client) (tracks : list Track) : M Server unit :=
  i ← game_of client;
  at_game i (game.add_tracks client tracks).

End server.

(** ** server.py: the [Receiver] class *)

Module receiver.

(** A decoded line: the action and the arguments the methods read from
    [args]. A line that lacks an argument its action needs is not
    modelled. *)
Inductive Command : Type :=
| Connect (username : string)
| Answer (answer : Z) (time : Q)
| AddTracks (tracks : list Track)
| Other (action : string).

(** [Receiver.handle_client_command], server.py:122-136, for the receiver
    [self]. *)
Definition handle_client_command (rng : nat → nat) (fuel : nat) (self : Client)
    (cmd : Command) : M server.Server bool :=
  match cmd with
  | Connect username => server.add_client rng fuel self username;; ret true
  | Answer answer time => server.received_answer self answer time;; ret true
  | AddTracks tracks => server.add_tracks self tracks;; ret true
  | Other _ => ret true
  end.

(** [Receiver.connectionLost], server.py:109-111; the list
    [factory.clients] of open connections is not modelled. *)
Definition connectionLost (self : Client) : M server.Server unit :=
  server.client_disconnected self.

(** What happens to the server: a line arrives on a connection, a
    connection is lost, or the reactor runs the delayed call [j] of the game
    at index [i]. *)
Inductive Event : Type :=
| EvLine (self : Client) (cmd : Command)
| EvLost (self : Client)
| EvTimer (i j : nat).

Definition handle (rng : nat → nat) (fuel : nat) (ev : Event) : M server.Server unit :=
  match ev with
  | EvLine self cmd => handle_client_command rng fuel self cmd;; ret tt
  | EvLost self => connectionLost self
  | EvTimer i j =>
      s ← get;
      if server.games s !! i is Some _ then server.at_game i (game.fire rng fuel j)
      else ret tt
  end.

(** The worlds of a server, from [Server()] on. *)
Inductive reachable (rng : nat → nat) : World server.Server → Prop :=
| reach_init n : reachable rng (Build_World server.new n [])
| reach_ok w ev fuel w' :
    reachable rng w → handle rng fuel ev w = Ok tt w' → reachable rng w'
| reach_raise w ev fuel e w' :
    reachable rng w → handle rng fuel ev w = Raise e w' → reachable rng w'.

End receiver.

(** ** gui.py: where a cover is drawn *)

Module gui.

Definition HEIGHT : Z := 400.
Definition WIDTH : Z := 800.
Definition COVER_HEIGHT : Z := 150.
Definition COVER_WIDTH : Z := 150.
Definition NUMBER_OF_COVERS : Z := 4.

(** [Cover.index_to_pos], gui.py:43-46; [/] on integers is the floor
    division of Python 2. *)
Definition index_to_pos (index : Z) : Z * Z :=
  let cell := (WIDTH / NUMBER_OF_COVERS)%Z in
  let padding := (cell - COVER_WIDTH)%Z in
  ((index * cell + padding / 2)%Z, 100%Z).

End gui.

(** ** Outcomes of a method call *)

(** [wp m Q E w]: run from [w], the computation [m] either returns a value
    and a world satisfying [Q], or raises leaving a world satisfying [E], or
    does not return. *)
Definition wp {St A} (m : M St A) (Q : A → World St → Prop)
    (E : exn → World St → Prop) (w : World St) : Prop :=
  match m w with
  | Ok a w' => Q a w'
  | Raise e w' => E e w'
  | Diverge => True
  end.

(** ** Invariants *)

(** The part of a game that the membership and answer invariants read. *)
Definition core (g : game.Game) : list Client * list Client * list Answer :=
  (game.clients g, game.waiting g, game.answers g).

(** [keeps m]: whatever its outcome, [m] leaves [clients], [waiting] and
    [answers] as they were. *)
Definition keeps {A} (m : M game.Game A) : Prop :=
  ∀ w, wp m (λ _ w', core (st w') = core (st w))
            (λ _ w', core (st w') = core (st w)) w.

(** The bound on the players of a game, and one answer per username. *)
Definition Inv (g : game.Game) : Prop :=
  length (game.clients g) + length (game.waiting g) ≤ MAX_PLAYERS ∧
  NoDup (a_username <$> game.answers g).

(** [preserves m]: [m] re-establishes [Inv], also when it raises. *)
Definition preserves {A} (m : M game.Game A) : Prop :=
  ∀ w, Inv (st w) → wp m (λ _ w', Inv (st w')) (λ _ w', Inv (st w')) w.

(** ** Closed forms *)

(** The world [Game.intermission()] leaves: the intermission message sent
    to every client in [clients], every delayed call cancelled, and
    [start_round] scheduled after [INTERMISSION_TIMEOUT]. *)
Definition after_intermission (w : World game.Game) : World game.Game :=
  let g := st w in
  Build_World
    (game.set_callbacks
       (((λ c, {| game.dc_delay := game.dc_delay c; game.dc_func := game.dc_func c;
                  game.dc_active := false |}) <$> game.callbacks g)
        ++ [{| game.dc_delay := INTERMISSION_TIMEOUT; game.dc_func := game.CbStartRound;
               game.dc_active := true |}]) g)
    (rpos w)
    (outbox w ++
       ((λ c, (c, MsgIntermission INTERMISSION_TIMEOUT (game.enough_players g)
                                  (game.enough_tracks g))) <$> game.clients g)).

(** The world after [self.used_tracks = []]. *)
Definition reset_used (w : World game.Game) : World game.Game :=
  Build_World (game.set_used_tracks [] (st w)) (rpos w) (outbox w).

(** The tracks not played yet: [set(self.all_tracks) - set(self.used_tracks)]. *)
Definition unused (g : game.Game) : gset Track :=
  list_to_set (game.all_tracks g) ∖ list_to_set (game.used_tracks g).

(** ** Choices *)

(** Every index below [m] keeps coming up in the sequence of draws. *)
Definition fair (rng : nat → nat) (m : nat) : Prop :=
  ∀ n i, i < m → ∃ k, n ≤ k ∧ rng k `mod` m = i.

(** What the list of choices built for the seed [track] must satisfy:
    [NUMBER_OF_ALTERNATIVES] distinct tracks, the seed among them, no two by
    the same artist. *)
Definition choices_ok (track : Track) (chs : list Track) : Prop :=
  length chs = NUMBER_OF_ALTERNATIVES ∧ NoDup chs ∧ track ∈ chs ∧
  NoDup (artist <$> chs).

(** One iteration of the loop of [generate_choices] on the candidate [t]. *)
Definition extend (tracks : list Track) (t : Track) : list Track :=
  if bool_decide (artist t ∈ artist <$> tracks) then tracks else tracks ++ [t].

(** The invariant of the loop of [generate_choices] for the seed [track]. *)
Definition loop_inv (track : Track) (tracks : list Track) : Prop :=
  NoDup (artist <$> tracks) ∧ track ∈ tracks ∧
  length tracks ≤ NUMBER_OF_ALTERNATIVES.

(** ** Sample worlds *)

Module sample.
Import game.

Definition t1 : Track := ("spotify:track:1", "Abba", "Waterloo").
Definition t2 : Track := ("spotify:track:2", "Blur", "Song 2").
Definition t3 : Track := ("spotify:track:3", "Cher", "Believe").
Definition t4 : Track := ("spotify:track:4", "Dido", "Thank You").
Definition t5 : Track := ("spotify:track:5", "Abba", "Fernando").

(** The random sequence 0, 1, 2, ... *)
Definition counting (n : nat) : nat := n.

Definition after (evs : list Event) (w : World Game) : World Game :=
  default w (run counting 20 evs w).

(** A new game. *)
Definition lobby : World Game := init 0 0.

(** One known track, nothing played. *)
Definition one_track : World Game := after [EvAddTracks 7 [t1]] lobby.

(** Four known tracks by four artists, nothing played. *)
Definition four_tracks : World Game := after [EvAddTracks 7 [t1; t2; t3; t4]] lobby.

(** The same after [t1] was selected and marked used, as in [start_round]
    between [select_track] and [generate_choices]. *)
Definition one_played : World Game :=
  Build_World (set_used_tracks [t1] (st four_tracks)) (rpos four_tracks)
              (outbox four_tracks).

(** Alice and Bob joined, four tracks were reported, and the intermission
    timer started round 1. *)
Definition round1 : World Game :=
  after [EvAddClient 7 "alice"; EvAddClient 8 "bob";
         EvAddTracks 7 [t1; t2; t3; t4]; EvTimer 0] lobby.

(** Carol joins while round 1 is running: she waits, and the game is full. *)
Definition carol_waits : World Game := after [EvAddClient 9 "carol"] round1.

(** Carol answers although she is waiting. *)
Definition carol_answers : World Game := after [EvAnswer 9 0%Z (1 # 2)] carol_waits.

(** Round 1 with three players, the first of whom gave the empty string as
    username; the correct choice of the round is index 3. *)
Definition nameless_round : World Game :=
  after [EvAddClient 7 ""; EvAddClient 8 "bob"; EvAddClient 9 "eve";
         EvAddTracks 7 [t1; t2; t3; t4]; EvTimer 0] lobby.

(** The nameless player answers right after 0.5 s, Bob after 1.5 s. *)
Definition both_answered : World Game :=
  after [EvAnswer 7 3%Z (1 # 2); EvAnswer 8 3%Z (3 # 2)] nameless_round.

(** Bob alone answers right, and reports 10.5 s. *)
Definition late_answer : World Game :=
  after [EvAnswer 8 3%Z (21 # 2)] nameless_round.

(** A server on which only Alice has connected. *)
Definition served : World server.Server :=
  match server.add_client counting 20 7 "alice" (Build_World server.new 0 []) with
  | Ok _ w => w
  | _ => Build_World server.new 0 []
  end.

(** Alice has answered in round 1, Bob has not. *)
Definition alice_answered : World Game := after [EvAnswer 7 3%Z (1 # 2)] round1.

(** A game with a client and four tracks, still in intermission. *)
Definition ready : World Game :=
  after [EvAddClient 7 "alice"; EvAddTracks 7 [t1; t2; t3; t4]] lobby.

(** The game Alice is in on [served], and the world of that game after Bob
    has joined it. *)
Definition served_game : Game := default (blank 0) (server.games (st served) !! 0).
Definition bob_joined : World Game :=
  match add_client counting 5 8 "bob"
          (Build_World served_game (rpos served) (outbox served)) with
  | Ok _ w => w
  | _ => Build_World served_game 0 []
  end.

(** Four known tracks, all by the same artist. *)
Definition album : list Track :=
  [t1; t5; ("spotify:track:6", "Abba", "Dancing Queen"); ("spotify:track:7", "Abba", "SOS")].
Definition same_artist : World Game := after [EvAddTracks 7 album] lobby.

End sample.

(** ** The specification's wording of the scoring rule *)

(** The scoring rule as the specification words it: bucket
    [floor(elapsedSeconds)], negative time clamped to bucket 0, and 0 points
    from [len(POINTS)] on. *)
Definition pointsFor_spec (elapsedSeconds : Q) : Z :=
  let b := Z.max 0 (Qfloor elapsedSeconds) in
  if (b <? Z.of_nat (length POINTS))%Z then nth (Z.to_nat b) POINTS 0%Z else 0%Z.

(** ** Ranking *)

(** The correct answers of a round in the order [end_round] scores them. *)
Definition ranked (g : game.Game) (k : nat) : list Answer :=
  filter (λ a, a_answer a = Z.of_nat k) (game.sorted_by_time (game.answers g)).

(** An answer [end_round] can score as the specification says: the
    username is not the empty string and the time has a bucket. *)
Definition scorable (a : Answer) : Prop :=
  a_username a ≠ "" ∧ game.time_to_points (a_time a) = Val (pointsFor_spec (a_time a)).

(** Answers in ascending order of time. *)
Definition time_le (a b : Answer) : Prop := (a_time a <= a_time b)%Q.

(** ** Frames *)

(** [frames f m]: whatever its outcome, [m] leaves the part [f] of the game
    as it was. *)
Definition frames {T A} (f : game.Game → T) (m : M game.Game A) : Prop :=
  ∀ w, wp m (λ _ w', f (st w') = f (st w)) (λ _ w', f (st w') = f (st w)) w.

(** What [f] may not look at for a method to leave it alone. *)
Definition blind_callbacks {T} (f : game.Game → T) : Prop :=
  ∀ v g, f (game.set_callbacks v g) = f g.
Definition blind_used_tracks {T} (f : game.Game → T) : Prop :=
  ∀ v g, f (game.set_used_tracks v g) = f g.
Definition blind_all_tracks {T} (f : game.Game → T) : Prop :=
  ∀ v g, f (game.set_all_tracks v g) = f g.
Definition blind_score {T} (f : game.Game → T) : Prop :=
  ∀ v g, f (game.set_score v g) = f g.

(** ** Reporting tracks *)

(** [all_tracks] after [add_tracks]: the reported tracks appended in order,
    those already present skipped. *)
Definition merge_tracks (all_tracks tracks : list Track) : list Track :=
  foldl (λ acc t, if bool_decide (t ∈ acc) then acc else acc ++ [t]) all_tracks tracks.

(** ** Placing a player *)

(** The games [Server.add_client] tries, by index: those that are not
    full, in the order of the list. *)
Definition open_games (s : server.Server) : list nat :=
  (filter (λ ig, game.is_full ig.2 = false)
          (imap (λ i g, (i, g)) (server.games s))).*1.

(** A game right after [Game.__init__]. *)
Definition fresh_game (identification : nat) : game.Game :=
  game.set_callbacks
    [{| game.dc_delay := INTERMISSION_TIMEOUT; game.dc_func := game.CbStartRound;
        game.dc_active := true |}]
    (game.blank identification).

(** A new game joined by its first player. *)
Definition lone_game (identification : nat) (client : Client) (username : string)
    : game.Game :=
  game.set_clients [client]
    (game.set_users (<[client := username]> ∅) (fresh_game identification)).

(** ** The state of a game between events *)

(** [callbacks] after [stop_callbacks]. *)
Definition cancelled (l : list game.DelayedCall) : list game.DelayedCall :=
  (λ c, {| game.dc_delay := game.dc_delay c; game.dc_func := game.dc_func c;
           game.dc_active := false |}) <$> l.

(** The delayed calls the reactor will still run. *)
Definition active (g : game.Game) : list game.DelayedCall :=
  filter (λ dc, game.dc_active dc = true) (game.callbacks g).

(** The call that belongs to the phase: the round timeout during a round,
    the next [start_round] otherwise. *)
Definition expected_call (g : game.Game) : game.Callback :=
  if game.is_running g then game.CbRoundTimedout else game.CbStartRound.

Definition timers_ok (g : game.Game) : Prop :=
  length (active g) ≤ 1 ∧ ∀ dc, dc ∈ active g → game.dc_func dc = expected_call g.

Definition tracks_ok (g : game.Game) : Prop :=
  NoDup (game.all_tracks g) ∧
  ∀ t, t ∈ game.used_tracks g → t ∈ game.all_tracks g.

Definition round_ok (g : game.Game) : Prop :=
  if game.is_running g then
    ∃ k track,
      game.correct_answer g = Some k ∧ game.choices g !! k = Some track ∧
      choices_ok track (game.choices g) ∧
      ∀ t, t ∈ game.choices g → t ∈ game.all_tracks g
  else game.answers g = [].

Definition GInv (g : game.Game) : Prop := tracks_ok g ∧ timers_ok g ∧ round_ok g.

(** The pool is large enough for [available_tracks] to return. *)
Definition enough_pool (g : game.Game) : Prop :=
  NUMBER_OF_ALTERNATIVES ≤ size (list_to_set (game.all_tracks g) : gset Track).

(** [pool_step w w']: from [w] to [w'] only [used_tracks] changed, to tracks
    that were marked used already, and random numbers were drawn. *)
Definition pool_step (w w' : World game.Game) : Prop :=
  ∃ u r, w' = Build_World (game.set_used_tracks u (st w)) r (outbox w) ∧
         ∀ t, t ∈ u → t ∈ game.used_tracks (st w).

(** ** Rounds *)

(** [started w w' track]: what a successful [start_round] has done when it
    played [track]. *)
Definition started (w w' : World game.Game) (track : Track) : Prop :=
  let g := st w in
  let g' := st w' in
  game.is_running g' = true ∧ game.round g' = game.round g + 1 ∧
  game.clients g' = game.clients g ++ game.waiting g ∧ game.waiting g' = [] ∧
  game.id g' = game.id g ∧ game.users g' = game.users g ∧
  game.score g' = game.score g ∧ game.answers g' = game.answers g ∧
  game.all_tracks g' = game.all_tracks g ∧
  track ∈ game.all_tracks g ∧
  (∀ t, t ∈ game.used_tracks g' → t = track ∨ t ∈ game.used_tracks g) ∧
  game.callbacks g' =
    cancelled (game.callbacks g)
    ++ [{| game.dc_delay := ROUND_TIME; game.dc_func := game.CbRoundTimedout;
           game.dc_active := true |}] ∧
  (∃ k, game.correct_answer g' = Some k ∧ game.choices g' !! k = Some track) ∧
  choices_ok track (game.choices g') ∧
  (∀ t, t ∈ game.choices g' → t ∈ game.all_tracks g) ∧
  outbox w' =
    outbox w ++
    ((λ c, (c, MsgStartRound (uri track) (game.choices g') (game.round g')))
       <$> game.clients g').

(** The world with one more answer recorded. *)
Definition answered (w : World game.Game) (a : Answer) : World game.Game :=
  Build_World (game.set_answers (game.answers (st w) ++ [a]) (st w)) (rpos w) (outbox w).

(** The world [end_round] has reached when it has scored the rows [sc]: out
    of the round, every delayed call cancelled, no answers left. *)
Definition round_closed (w : World game.Game) (sc : list (string * Z)) : World game.Game :=
  Build_World
    (game.set_score (game.score (st w) ++ sc)
       (game.set_answers []
          (game.set_callbacks (cancelled (game.callbacks (st w)))
             (game.set_is_running false (st w)))))
    (rpos w) (outbox w).

(** The world a completed [end_round] leaves: the result sent to every
    client, then the intermission entered. *)
Definition round_ended (w : World game.Game) (sc : list (string * Z))
    (winner : option string) : World game.Game :=
  after_intermission
    (Build_World (st (round_closed w sc)) (rpos w)
       (outbox w ++
          ((λ c, (c, MsgEndRound winner (game.score (st w) ++ sc)))
             <$> game.clients (st w)))).

(** [gpreserves m]: [m] re-establishes [GInv], also when it raises. *)
Definition gpreserves {A} (m : M game.Game A) : Prop :=
  ∀ w, GInv (st w) → wp m (λ _ w', GInv (st w')) (λ _ w', GInv (st w')) w.

(** ** The state of the server between events *)

(** What holds of a game on a server: its id is its index in [games], and
    the invariants of a game. *)
Definition game_ok (i : nat) (g : game.Game) : Prop :=
  game.id g = i ∧ Inv g ∧ GInv g.

(** The invariant of the server: every mapped client points at a game of
    the list, and every game of the list is well. *)
Definition SInv (s : server.Server) : Prop :=
  (∀ c i, server.clients s !! c = Some i → i < length (server.games s)) ∧
  (∀ i g, server.games s !! i = Some g → game_ok i g).

(** [game_preserves m]: the game method [m] keeps a game well. *)
Definition game_preserves {A} (m : M game.Game A) : Prop :=
  preserves m ∧ gpreserves m ∧ frames game.id m.

Import game.

(** * Properties *)

(** ** The monad *)

Lemma bind_Ok {St A B} (m : M St A) (k : A → M St B) w a w' :
  m w = Ok a w' → (m ≫= k) w = k a w'.
Proof. intros H. unfold mbind, M_bind, bind. by rewrite H. Qed.

Lemma bind_Raise {St A B} (m : M St A) (k : A → M St B) w e w' :
  m w = Raise e w' → (m ≫= k) w = Raise e w'.
Proof. intros H. unfold mbind, M_bind, bind. by rewrite H. Qed.

Lemma bind_Diverge {St A B} (m : M St A) (k : A → M St B) w :
  m w = Diverge → (m ≫= k) w = Diverge.
Proof. intros H. unfold mbind, M_bind, bind. by rewrite H. Qed.

Section WP.
Context {St : Type}.
Implicit Types (w : World St).

Lemma wp_ret {A} (a : A) Q E w : Q a w → wp (St := St) (ret a) Q E w.
Proof. done. Qed.

Lemma wp_bind {A B} (m : M St A) (k : A → M St B) Q E w :
  wp m (λ a w', wp (k a) Q E w') E w → wp (m ≫= k) Q E w.
Proof.
  unfold wp, mbind, M_bind, bind. by destruct (m w).
Qed.

Lemma wp_mono {A} (m : M St A) (Q Q' : A → World St → Prop) (E E' : exn → World St → Prop) w :
  wp m Q E w → (∀ a w', Q a w' → Q' a w') → (∀ e w', E e w' → E' e w') →
  wp m Q' E' w.
Proof. unfold wp. destruct (m w); auto. Qed.

Lemma wp_get Q E w : Q (st w) w → wp get Q E w.
Proof. done. Qed.

Lemma wp_modify (f : St → St) Q E w :
  Q tt (Build_World (f (st w)) (rpos w) (outbox w)) → wp (modify f) Q E w.
Proof. done. Qed.

Lemma wp_send c d Q E w :
  Q tt (Build_World (st w) (rpos w) (outbox w ++ [(c, d)])) → wp (send c d) Q E w.
Proof. done. Qed.

Lemma wp_raise {A} e (Q : A → World St → Prop) E w : E e w → wp (raise e) Q E w.
Proof. done. Qed.

Lemma wp_diverge {A} (Q : A → World St → Prop) E w : wp diverge Q E w.
Proof. done. Qed.

Lemma wp_lift_res {A} (r : res A) (Q : A → World St → Prop) E w :
  match r with Val a => Q a w | Exc e => E e w end → wp (lift_res r) Q E w.
Proof. by destruct r. Qed.

Lemma wp_assert (b : bool) Q (E : exn → World St → Prop) w :
  (b = true → Q tt w) → (b = false → E AssertionError w) → wp (py_assert b) Q E w.
Proof. destruct b; unfold py_assert, wp; simpl; auto. Qed.

Lemma wp_randbelow rng n Q E w :
  Q (rng (rpos w) `mod` n) (Build_World (st w) (S (rpos w)) (outbox w)) →
  wp (randbelow rng n) Q E w.
Proof. done. Qed.

End WP.

(** ** Methods that leave the players and the answers alone *)

Lemma keeps_ret {A} (a : A) : keeps (ret a).
Proof. by intros w. Qed.

Lemma keeps_bind {A B} (m : M Game A) (k : A → M Game B) :
  keeps m → (∀ a, keeps (k a)) → keeps (m ≫= k).
Proof.
  intros Hm Hk w. apply wp_bind.
  eapply wp_mono; [apply Hm| |done].
  intros a w' Hc. cbn beta.
  eapply wp_mono; [apply Hk| |]; cbn beta; intros; congruence.
Qed.

Lemma keeps_get : keeps get.
Proof. by intros w. Qed.

Lemma keeps_modify (f : Game → Game) :
  (∀ g, core (f g) = core g) → keeps (modify f).
Proof. intros Hf w. apply wp_modify. apply Hf. Qed.

Lemma keeps_send c d : keeps (send c d).
Proof. by intros w. Qed.

Lemma keeps_raise {A} e : keeps (raise (A := A) e).
Proof. by intros w. Qed.

Lemma keeps_diverge {A} : keeps (diverge (A := A)).
Proof. by intros w. Qed.

Lemma keeps_lift_res {A} (r : res A) : keeps (lift_res r).
Proof. destruct r; [apply keeps_ret | apply keeps_raise]. Qed.

Lemma keeps_assert b : keeps (py_assert b).
Proof. destruct b; [apply keeps_ret | apply keeps_raise]. Qed.

Lemma keeps_randbelow rng n : keeps (randbelow rng n).
Proof. by intros w. Qed.

Lemma keeps_random_choice {A} rng (l : list A) : keeps (random_choice rng l).
Proof.
  apply keeps_bind; [apply keeps_randbelow|]. intros i.
  destruct (l !! i); [apply keeps_ret | apply keeps_raise].
Qed.

Lemma keeps_shuffle_from {A} rng i (x : list A) : keeps (shuffle_from rng i x).
Proof.
  revert x. induction i as [|i IH]; intros x; simpl; [apply keeps_ret|].
  apply keeps_bind; [apply keeps_randbelow|]. intros j. apply IH.
Qed.

Lemma keeps_random_shuffle {A} rng (x : list A) : keeps (random_shuffle rng x).
Proof. apply keeps_shuffle_from. Qed.

Create HintDb keeps discriminated.
#[local] Hint Resolve keeps_ret keeps_get keeps_send keeps_raise keeps_diverge
  keeps_lift_res keeps_assert keeps_randbelow keeps_random_choice
  keeps_random_shuffle : keeps.

(** One structural step of a [keeps] goal. *)
Ltac keeps_step :=
  match goal with
  | |- keeps (_ ≫= _) => apply keeps_bind; [|intros ?]
  | |- keeps (modify _) => apply keeps_modify; intros ?; reflexivity
  | |- keeps (if ?b then _ else _) => destruct b
  | |- keeps (match ?o with Some _ => _ | None => _ end) => destruct o
  | |- keeps _ => solve [auto with keeps]
  end.

Lemma keeps_notify_clients d : keeps (notify_clients d).
Proof.
  unfold notify_clients. keeps_step; [keeps_step|].
  induction (clients a) as [|c l IH]; simpl; repeat keeps_step.
Qed.

Lemma keeps_stop_callbacks : keeps stop_callbacks.
Proof. unfold stop_callbacks. keeps_step. Qed.

Lemma keeps_call_later delay f : keeps (call_later delay f).
Proof. unfold call_later. keeps_step. Qed.

#[local] Hint Resolve keeps_notify_clients keeps_stop_callbacks keeps_call_later : keeps.

Lemma keeps_intermission timeout : keeps (intermission timeout).
Proof. unfold intermission. repeat keeps_step. Qed.

Lemma keeps_available_tracks fuel : keeps (available_tracks fuel).
Proof.
  induction fuel as [|fuel IH]; simpl; [apply keeps_diverge|].
  repeat keeps_step.
Qed.

Lemma keeps_add_tracks client tracks : keeps (add_tracks client tracks).
Proof.
  unfold add_tracks. induction tracks as [|t l IH]; simpl; repeat keeps_step.
Qed.

#[local] Hint Resolve keeps_intermission keeps_available_tracks keeps_add_tracks : keeps.

Lemma keeps_select_track rng fuel : keeps (select_track rng fuel).
Proof. unfold select_track. repeat keeps_step. Qed.

Lemma keeps_generate_choices_loop rng fuel tracks :
  keeps (generate_choices_loop rng fuel tracks).
Proof.
  revert tracks. induction fuel as [|fuel IH]; intros tracks; [apply keeps_diverge|].
  cbn [generate_choices_loop]. repeat keeps_step.
Qed.

#[local] Hint Resolve keeps_select_track keeps_generate_choices_loop : keeps.

Lemma keeps_generate_choices rng fuel track : keeps (generate_choices rng fuel track).
Proof. unfold generate_choices. repeat keeps_step. Qed.

Lemma keeps_end_round_loop correct_answers winner :
  keeps (end_round_loop correct_answers winner).
Proof.
  revert winner. induction correct_answers as [|a l IH]; intros winner; simpl;
    repeat keeps_step.
Qed.

Lemma keeps_filter_correct answers : keeps (filter_correct answers).
Proof. unfold filter_correct. destruct answers; repeat keeps_step. Qed.

#[local] Hint Resolve keeps_generate_choices keeps_end_round_loop keeps_filter_correct : keeps.

Lemma Inv_core g g' : core g' = core g → Inv g → Inv g'.
Proof.
  unfold core, Inv. intros [= Hc Hw Ha]. by rewrite Hc, Hw, Ha.
Qed.

Lemma keeps_Inv {A} (m : M Game A) w :
  keeps m → Inv (st w) →
  wp m (λ _ w', Inv (st w')) (λ _ w', Inv (st w')) w.
Proof.
  intros Hm HI. eapply wp_mono; [apply Hm| |]; cbn beta; intros;
    eapply Inv_core; eauto.
Qed.

(** ** The invariant through the methods of [Game] *)

Lemma preserves_keeps {A} (m : M Game A) : keeps m → preserves m.
Proof. intros Hm w HI. by apply keeps_Inv. Qed.

Lemma preserves_bind {A B} (m : M Game A) (k : A → M Game B) :
  preserves m → (∀ a, preserves (k a)) → preserves (m ≫= k).
Proof.
  intros Hm Hk w HI. apply wp_bind.
  eapply wp_mono; [by apply Hm| |done].
  intros a w' HI'. by apply Hk.
Qed.

Lemma preserves_modify (f : Game → Game) :
  (∀ g, Inv g → Inv (f g)) → preserves (modify f).
Proof. intros Hf w HI. apply wp_modify. by apply Hf. Qed.

Ltac preserves_head :=
  first [ apply preserves_modify; intros ? HI; exact HI
        | apply preserves_keeps; solve [repeat keeps_step] ].

Ltac preserves_step :=
  match goal with
  | |- preserves (get ≫= _) => apply preserves_bind; [preserves_head | intros ?]
  | |- preserves (_ ≫= _) => apply preserves_bind; [preserves_head | intros ?]
  | |- preserves (if ?b then _ else _) => destruct b
  | |- preserves (match ?o with Some _ => _ | None => _ end) => destruct o
  | |- preserves _ => preserves_head
  end.

Lemma preserves_end_round : preserves end_round.
Proof.
  unfold end_round. repeat preserves_step.
  apply preserves_bind.
  { apply preserves_modify. intros g' [HI _]. split; [exact HI|constructor]. }
  intros _. repeat preserves_step.
Qed.

Lemma preserves_join_players : preserves join_players.
Proof.
  intros w [Hn Ha]. unfold join_players, wp. simpl. split; [|done].
  simpl. rewrite length_app. simpl. lia.
Qed.

Lemma preserves_start_round rng fuel : preserves (start_round rng fuel).
Proof.
  unfold start_round. repeat preserves_step.
  apply preserves_bind; [apply preserves_join_players|]. intros _.
  repeat preserves_step.
Qed.

Lemma preserves_add_client rng fuel client username :
  preserves (add_client rng fuel client username).
Proof.
  intros w HI. unfold add_client. apply wp_bind, wp_get.
  destruct (is_full (st w)) eqn:Hfull; [by apply wp_ret|].
  apply bool_decide_eq_false in Hfull.
  apply wp_bind, wp_modify, wp_bind.
  destruct (is_running (st w)).
  - apply wp_modify, wp_ret. destruct HI as [Hn Ha]. split; [|exact Ha].
    simpl. rewrite length_app. simpl. lia.
  - apply wp_bind, wp_modify, wp_bind, wp_get.
    match goal with |- wp _ _ _ ?w1 => assert (HI1 : Inv (st w1)) end.
    { destruct HI as [Hn Ha]. split; [|exact Ha].
      simpl. rewrite length_app. simpl. lia. }
    match goal with |- wp (if ?b then _ else _) _ _ _ => destruct b end.
    + eapply wp_mono; [by apply preserves_start_round| |done].
      intros ? w' HI'. by apply wp_ret.
    + by apply wp_ret, wp_ret.
Qed.

Lemma list_remove_first_length {A} `{EqDecision A} (x : A) (l l' : list A) :
  list_remove_first x l = Val l' → length l = S (length l').
Proof.
  revert l'. induction l as [|y l IH]; intros l' H; simpl in H; [done|].
  destruct (decide (x = y)); [by inversion H|].
  destruct (list_remove_first x l) as [r|]; [|done].
  inversion H; subst. simpl. by rewrite (IH r).
Qed.

Lemma list_remove_first_absent {A} `{EqDecision A} (x : A) (l : list A) :
  x ∉ l → list_remove_first x l = Exc ValueError.
Proof.
  induction l as [|y l IH]; intros Hx; simpl; [done|].
  apply not_elem_of_cons in Hx as [Hxy Hx].
  destruct (decide (x = y)); [done|]. by rewrite IH.
Qed.

Lemma preserves_remove_client client : preserves (remove_client client).
Proof.
  intros w HI. unfold remove_client. apply wp_bind, wp_get, wp_bind, wp_lift_res.
  destruct (list_remove_first client (clients (st w))) as [clients'|] eqn:Hrem;
    [|exact HI].
  apply list_remove_first_length in Hrem.
  apply wp_bind, wp_modify.
  match goal with |- wp _ _ _ ?w1 => assert (HI1 : Inv (st w1)) end.
  { destruct HI as [Hn Ha]. split; [|exact Ha]. simpl. lia. }
  destruct (users (st w) !! client); [|exact HI1].
  apply wp_bind, wp_modify, wp_bind, wp_modify, wp_bind, wp_get.
  match goal with |- wp (if ?b then _ else _) _ _ _ => destruct b end.
  - by apply preserves_end_round.
  - by apply wp_ret.
Qed.

Lemma filter_username_nil (username : string) (l : list Answer) :
  filter (λ a, a_username a = username) l = [] → username ∉ a_username <$> l.
Proof.
  intros Hf Hin. apply list_elem_of_fmap in Hin as (a & -> & Ha).
  assert (a ∈ filter (λ a', a_username a' = a_username a) l) as Hin
    by by apply list_elem_of_filter.
  rewrite Hf in Hin. by apply not_elem_of_nil in Hin.
Qed.

Lemma preserves_received_answer client answer time :
  preserves (received_answer client answer time).
Proof.
  intros w HI. unfold received_answer. apply wp_bind, wp_get.
  destruct (is_running (st w)); simpl; [|by apply wp_ret].
  destruct (users (st w) !! client) as [username|]; [|exact HI].
  case_bool_decide as Hdup; [by apply wp_ret|].
  apply filter_username_nil in Hdup.
  apply wp_bind, wp_modify, wp_bind, wp_get.
  match goal with |- wp _ _ _ ?w1 => assert (HI1 : Inv (st w1)) end.
  { destruct HI as [Hn Ha]. split; [exact Hn|]. simpl.
    rewrite fmap_app. simpl. apply NoDup_app. split; [exact Ha|].
    split; [|apply NoDup_singleton].
    intros x Hx Hx'. apply list_elem_of_singleton in Hx'. by subst. }
  match goal with |- wp (if ?b then _ else _) _ _ _ => destruct b end.
  - by apply preserves_end_round.
  - by apply wp_ret.
Qed.

Lemma preserves_fire rng fuel i : preserves (fire rng fuel i).
Proof.
  intros w HI. unfold fire. apply wp_bind, wp_get.
  destruct (callbacks (st w) !! i) as [dc|]; [|by apply wp_ret].
  destruct (dc_active dc); [|by apply wp_ret].
  apply wp_bind, wp_modify.
  destruct (dc_func dc).
  - by apply preserves_start_round.
  - by apply preserves_end_round.
Qed.

Lemma preserves_handle rng fuel ev : preserves (handle rng fuel ev).
Proof.
  destruct ev; simpl.
  - apply preserves_bind; [apply preserves_add_client|].
    intros _. apply preserves_keeps, keeps_ret.
  - apply preserves_remove_client.
  - apply preserves_keeps, keeps_add_tracks.
  - apply preserves_received_answer.
  - apply preserves_fire.
Qed.

Lemma Inv_init identification n : Inv (st (init identification n)).
Proof. split; [simpl; unfold MAX_PLAYERS; lia | constructor]. Qed.

Lemma reachable_Inv rng w : reachable rng w → Inv (st w).
Proof.
  induction 1 as [identification n|w ev fuel w' _ IH Hstep|w ev fuel e w' _ IH Hstep].
  - apply Inv_init.
  - pose proof (preserves_handle rng fuel ev w IH) as Hwp.
    unfold wp in Hwp. by rewrite Hstep in Hwp.
  - pose proof (preserves_handle rng fuel ev w IH) as Hwp.
    unfold wp in Hwp. by rewrite Hstep in Hwp.
Qed.

(** ** Scoring: [time_to_points] *)

Lemma py_int_nonneg (x : Q) : (0 <= x)%Q → py_int x = Qfloor x.
Proof.
  destruct x as [n d]. unfold Qle, py_int, Qfloor. simpl. intros H.
  apply Z.quot_div_nonneg; lia.
Qed.

Lemma py_int_neg (x : Q) : (x < 0)%Q → py_int x = Qceiling x.
Proof.
  destruct x as [n d]. unfold Qlt, py_int, Qceiling, Qfloor. simpl. intros H.
  assert (E : (n ÷ Z.pos d = - ((- n) ÷ Z.pos d))%Z).
  { rewrite Z.quot_opp_l by lia. lia. }
  rewrite E. f_equal. apply Z.quot_div_nonneg; lia.
Qed.

Lemma py_getitem_nonneg {A} (l : list A) (i : Z) (d : A) :
  (0 ≤ i < Z.of_nat (length l))%Z →
  py_getitem l i = Val (nth (Z.to_nat i) l d).
Proof.
  intros H. unfold py_getitem. cbv zeta.
  assert (Hi : (i <? 0)%Z = false) by lia. rewrite !Hi.
  destruct (l !! Z.to_nat i) as [a|] eqn:E.
  - by rewrite nth_lookup, E.
  - apply lookup_ge_None in E. lia.
Qed.

Lemma py_getitem_neg {A} (l : list A) (i : Z) (d : A) :
  (- Z.of_nat (length l) ≤ i < 0)%Z →
  py_getitem l i = Val (nth (Z.to_nat (Z.of_nat (length l) + i)) l d).
Proof.
  intros H. unfold py_getitem. cbv zeta.
  assert (Hi : (i <? 0)%Z = true) by lia. rewrite Hi.
  assert (Hj : (Z.of_nat (length l) + i <? 0)%Z = false) by lia. rewrite Hj.
  destruct (l !! Z.to_nat (Z.of_nat (length l) + i)) as [a|] eqn:E.
  - by rewrite nth_lookup, E.
  - apply lookup_ge_None in E. lia.
Qed.

Lemma py_getitem_below {A} (l : list A) (i : Z) :
  (i < - Z.of_nat (length l))%Z → py_getitem l i = Exc IndexError.
Proof.
  intros H. unfold py_getitem. cbv zeta.
  assert (Hi : (i <? 0)%Z = true) by lia. rewrite Hi.
  assert (Hj : (Z.of_nat (length l) + i <? 0)%Z = true) by lia. by rewrite Hj.
Qed.

Lemma py_getitem_above {A} (l : list A) (i : Z) :
  (Z.of_nat (length l) ≤ i)%Z → py_getitem l i = Exc IndexError.
Proof.
  intros H. unfold py_getitem. cbv zeta.
  assert (Hi : (i <? 0)%Z = false) by lia. rewrite !Hi.
  destruct (l !! Z.to_nat i) as [a|] eqn:E; [|done].
  apply lookup_lt_Some in E. lia.
Qed.

(** C1, the claim as stated fails: an answer reported after -2 seconds is
    not clamped to bucket 0 (89 points); [POINTS[-2]] is read, 2 points. *)
Lemma time_to_points_negative_not_clamped :
  time_to_points (-2 # 1) = Val 2%Z ∧ pointsFor_spec (-2 # 1) = 89%Z ∧
  time_to_points (-2 # 1) ≠ Val (pointsFor_spec (-2 # 1)).
Proof. split; [reflexivity|]. split; [reflexivity|]. discriminate. Qed.

(** The boundary bucket: at [int(time) = len(POINTS)] the test
    [time > len(POINTS)] lets the index through and [POINTS[10]] raises,
    where the specification gives 0 points. *)
Lemma time_to_points_boundary_raises :
  time_to_points (10 # 1) = Exc IndexError ∧ pointsFor_spec (10 # 1) = 0%Z.
Proof. split; reflexivity. Qed.

(** C1 (amended): with [n = len(POINTS)], [time_to_points] returns
    [POINTS[floor(t)]] when [0 <= t] and [floor(t) < n], and 0 when
    [floor(t) > n]; on both ranges it agrees with the specification's
    [pointsFor]. Negative time is not clamped: [int] truncates toward zero,
    so a time in (-1, 0) scores [POINTS[0]], a time with
    [-n <= ceil(t) <= -1] scores [POINTS[n + ceil(t)]] (the table read from its
    end), and a time with [ceil(t) < -n] raises [IndexError]. *)
Theorem time_to_points_buckets (t : Q) :
  let n := Z.of_nat (length POINTS) in
  ((0 <= t)%Q → (Qfloor t < n)%Z →
     time_to_points t = Val (nth (Z.to_nat (Qfloor t)) POINTS 0%Z) ∧
     time_to_points t = Val (pointsFor_spec t)) ∧
  ((n < Qfloor t)%Z →
     time_to_points t = Val 0%Z ∧ time_to_points t = Val (pointsFor_spec t)) ∧
  ((t < 0)%Q → (Qceiling t = 0)%Z →
     time_to_points t = Val (nth 0 POINTS 0%Z)) ∧
  ((- n ≤ Qceiling t ≤ -1)%Z →
     time_to_points t = Val (nth (Z.to_nat (n + Qceiling t)) POINTS 0%Z)) ∧
  ((Qceiling t < - n)%Z → time_to_points t = Exc IndexError).
Proof.
  intros n.
  assert (Hfc : (Qfloor t ≤ Qceiling t)%Z).
  { rewrite Zle_Qle. apply Qle_floor_ceiling. }
  assert (Hn : n = 10%Z) by reflexivity.
  assert (Hsgn : (0 <= t)%Q ∨ (t < 0)%Q).
  { destruct (Qlt_le_dec t 0); auto. }
  assert (Hnegc : (t < 0)%Q → (Qceiling t ≤ 0)%Z).
  { intros Ht. change 0%Z with (Qceiling 0). apply Qceiling_resp_le.
    by apply Qlt_le_weak. }
  assert (Hposf : (0 <= t)%Q → (0 ≤ Qfloor t)%Z).
  { intros Ht. change 0%Z with (Qfloor 0). by apply Qfloor_resp_le. }
  assert (Hspec : (0 <= t)%Q → (Qfloor t < n)%Z →
    pointsFor_spec t = nth (Z.to_nat (Qfloor t)) POINTS 0%Z).
  { intros Ht Hlt. unfold pointsFor_spec. cbv zeta.
    rewrite Z.max_r by auto. fold n.
    assert (E : (Qfloor t <? n)%Z = true) by lia. by rewrite E. }
  unfold time_to_points. cbv zeta. fold n.
  split; [|split; [|split; [|split]]].
  - intros Ht Hlt. rewrite (py_int_nonneg t Ht), (Hspec Ht Hlt).
    assert (E : (n <? Qfloor t)%Z = false) by lia. rewrite E.
    split; apply py_getitem_nonneg; fold n; auto with lia.
  - intros Hlt. assert (Ht : (0 <= t)%Q).
    { destruct Hsgn as [|Hs]; [done|]. apply Hnegc in Hs. exfalso. lia. }
    rewrite (py_int_nonneg t Ht).
    assert (E : (n <? Qfloor t)%Z = true) by lia. rewrite E.
    split; [done|]. unfold pointsFor_spec. cbv zeta. fold n.
    assert (E' : (Z.max 0 (Qfloor t) <? n)%Z = false) by lia. by rewrite E'.
  - intros Ht Hc. rewrite (py_int_neg t Ht), Hc. reflexivity.
  - intros [Hlo Hhi]. assert (Ht : (t < 0)%Q).
    { destruct Hsgn as [Hs|]; [|done]. apply Hposf in Hs. exfalso. lia. }
    rewrite (py_int_neg t Ht).
    assert (E : (n <? Qceiling t)%Z = false) by lia. rewrite E.
    apply py_getitem_neg. fold n. lia.
  - intros Hlt. assert (Ht : (t < 0)%Q).
    { destruct Hsgn as [Hs|]; [|done]. apply Hposf in Hs. exfalso. lia. }
    rewrite (py_int_neg t Ht).
    assert (E : (n <? Qceiling t)%Z = false) by lia. rewrite E.
    apply py_getitem_below. fold n. lia.
Qed.

Lemma time_to_points_buckets_witness :
  time_to_points (1 # 2) = Val 89%Z ∧ time_to_points (23 # 2) = Val 0%Z ∧
  time_to_points (-1 # 2) = Val 89%Z ∧ time_to_points (-5 # 2) = Val 2%Z ∧
  time_to_points (-12 # 1) = Exc IndexError.
Proof.
  split; [|split; [|split; [|split]]].
  - destruct (time_to_points_buckets (1 # 2)) as (H & _).
    apply H; [discriminate | reflexivity].
  - destruct (time_to_points_buckets (23 # 2)) as (_ & H & _).
    apply H. reflexivity.
  - destruct (time_to_points_buckets (-1 # 2)) as (_ & _ & H & _).
    apply H; reflexivity.
  - destruct (time_to_points_buckets (-5 # 2)) as (_ & _ & _ & H & _).
    apply H. split; discriminate.
  - destruct (time_to_points_buckets (-12 # 1)) as (_ & _ & _ & _ & H).
    apply H. reflexivity.
Defined.

(** ** Joining a full game *)

Lemma add_client_is_full (rng : nat → nat) (fuel : nat) (client : Client)
    (username : string) (w : World Game) :
  is_full (st w) = true →
  add_client rng fuel client username w = Ok false w.
Proof.
  intros Hfull. unfold add_client.
  rewrite (bind_Ok get _ w (st w) w) by reflexivity.
  by rewrite Hfull.
Qed.

(** C10: [add_client] on a full game returns [False] and leaves the whole
    world as it was: no username is recorded, [clients] and [waiting] are
    untouched, nothing is sent and no round is started. *)
Theorem add_client_full_unchanged (rng : nat → nat) (fuel : nat) (client : Client)
    (username : string) (w : World Game) :
  is_full (st w) = true →
  add_client rng fuel client username w = Ok false w.
Proof.
  intros Hfull. unfold add_client.
  erewrite bind_Ok by reflexivity.
  rewrite Hfull. reflexivity.
Qed.

Lemma add_client_full_unchanged_witness :
  is_full (st sample.carol_waits) = true ∧
  add_client sample.counting 20 10 "dave" sample.carol_waits = Ok false sample.carol_waits.
Proof.
  split; [reflexivity|].
  apply (add_client_full_unchanged sample.counting 20 10 "dave" sample.carol_waits).
  reflexivity.
Defined.

(** ** The number of players *)

Lemma run_reachable rng fuel evs w w' :
  reachable rng w → run rng fuel evs w = Some w' → reachable rng w'.
Proof.
  revert w. induction evs as [|ev evs IH]; intros w Hw Hrun; simpl in Hrun.
  - by inversion Hrun; subst.
  - destruct (handle rng fuel ev w) as [[] w1|e w1|] eqn:Hstep; [| |done].
    + eapply IH; [|exact Hrun]. by eapply reach_ok.
    + eapply IH; [|exact Hrun]. by eapply reach_raise.
Qed.

Lemma reachable_after evs w :
  reachable sample.counting w → reachable sample.counting (sample.after evs w).
Proof.
  intros Hw. unfold sample.after.
  destruct (run sample.counting 20 evs w) as [w'|] eqn:Hrun; simpl; [|done].
  by eapply run_reachable.
Qed.

(** C7: in every world a game reaches, through [add_client] calls and every
    other event, [len(clients) + len(waiting)] is at most [MAX_PLAYERS]; and
    an [add_client] call made when the sum has reached [MAX_PLAYERS] fails:
    it returns [False]. *)
Theorem players_bounded (rng : nat → nat) (w : World Game) :
  reachable rng w →
  length (clients (st w)) + length (waiting (st w)) ≤ MAX_PLAYERS ∧
  (MAX_PLAYERS ≤ length (clients (st w)) + length (waiting (st w)) →
   ∀ fuel client username, add_client rng fuel client username w = Ok false w).
Proof.
  intros Hw. split; [by apply reachable_Inv in Hw as [Hn _]|].
  intros Hfull fuel client username.
  apply add_client_is_full. by apply bool_decide_eq_true.
Qed.

Lemma players_bounded_witness :
  length (clients (st sample.carol_waits)) + length (waiting (st sample.carol_waits)) ≤ MAX_PLAYERS ∧
  add_client sample.counting 20 10 "dave" sample.carol_waits = Ok false sample.carol_waits.
Proof.
  assert (Hr : reachable sample.counting sample.carol_waits).
  { do 2 apply reachable_after. apply reach_init. }
  destruct (players_bounded sample.counting sample.carol_waits Hr) as [Hn Hfull].
  split; [exact Hn|]. apply Hfull. vm_compute. lia.
Defined.

(** ** Intermission and the guard of [start_round] *)

Lemma send_all_eq (d : Message) (l : list Client) (g : Game) r o :
  foldr (λ c k, send c d;; k) (ret tt) l (Build_World g r o) =
  Ok tt (Build_World g r (o ++ ((λ c, (c, d)) <$> l))).
Proof.
  revert o. induction l as [|c l IH]; intros o; simpl.
  - by rewrite app_nil_r.
  - erewrite bind_Ok by reflexivity. simpl. rewrite IH.
    by rewrite <- app_assoc.
Qed.

Lemma notify_clients_eq (d : Message) (w : World Game) :
  notify_clients d w =
  Ok tt (Build_World (st w) (rpos w) (outbox w ++ ((λ c, (c, d)) <$> clients (st w)))).
Proof.
  unfold notify_clients. erewrite bind_Ok by reflexivity.
  destruct w as [g r o]. apply send_all_eq.
Qed.

Lemma intermission_eq (w : World Game) :
  intermission None w = Ok tt (after_intermission w).
Proof.
  unfold intermission. erewrite bind_Ok by reflexivity.
  erewrite bind_Ok by apply notify_clients_eq.
  reflexivity.
Qed.

(** C9, the claim as stated fails: [start_round] called while a round is
    running raises [AssertionError]. *)
Lemma start_round_running_raises :
  is_running (st sample.round1) = true ∧
  start_round sample.counting 20 sample.round1 = Raise AssertionError sample.round1.
Proof. split; reflexivity. Qed.

(** C9 (amended): [start_round] called in intermission when [can_start()] is
    false starts no round and re-enters intermission: it returns normally,
    and all it does is send the intermission message to the clients, cancel
    the pending calls and schedule itself again after
    [INTERMISSION_TIMEOUT]; the game stays out of a round. Called while a
    round is running it raises [AssertionError] and changes nothing. *)
Theorem start_round_guard (rng : nat → nat) (fuel : nat) (w : World Game) :
  (is_running (st w) = false → can_start (st w) = false →
     start_round rng fuel w = Ok tt (after_intermission w) ∧
     start_round rng fuel w = intermission None w ∧
     is_running (st (after_intermission w)) = false ∧
     round (st (after_intermission w)) = round (st w) ∧
     core (st (after_intermission w)) = core (st w)) ∧
  (is_running (st w) = true →
     start_round rng fuel w = Raise AssertionError w).
Proof.
  split.
  - intros Hrun Hcan.
    assert (E : start_round rng fuel w = intermission None w).
    { unfold start_round. erewrite bind_Ok by reflexivity.
      rewrite Hrun. simpl. erewrite bind_Ok by reflexivity.
      by rewrite Hcan. }
    rewrite E, intermission_eq. by repeat split.
  - intros Hrun. unfold start_round. erewrite bind_Ok by reflexivity.
    rewrite Hrun. reflexivity.
Qed.

Lemma start_round_guard_witness :
  start_round sample.counting 20 sample.lobby = Ok tt (after_intermission sample.lobby) ∧
  start_round sample.counting 20 sample.round1 = Raise AssertionError sample.round1.
Proof.
  split.
  - apply (start_round_guard sample.counting 20 sample.lobby); reflexivity.
  - apply (start_round_guard sample.counting 20 sample.round1); reflexivity.
Defined.

(** ** Leaving a game *)

Lemma remove_client_absent (client : Client) (w : World Game) :
  client ∉ clients (st w) → remove_client client w = Raise ValueError w.
Proof.
  intros Hc. unfold remove_client. erewrite bind_Ok by reflexivity.
  by rewrite (list_remove_first_absent _ _ Hc).
Qed.

(** C4, the code at the failing input: Carol joined during round 1 and is in
    [waiting], not in [clients]. [remove_client] raises [ValueError] at
    [self.clients.remove(client)] and removes nothing: Carol stays in
    [waiting] and in [users]. *)
Theorem remove_client_waiting_raises :
  9 ∈ waiting (st sample.carol_waits) ∧
  users (st sample.carol_waits) !! 9 = Some "carol" ∧
  remove_client 9 sample.carol_waits = Raise ValueError sample.carol_waits.
Proof.
  split; [|split].
  - change (waiting (st sample.carol_waits)) with [9].
    by apply list_elem_of_singleton.
  - vm_compute. reflexivity.
  - apply remove_client_absent.
    change (clients (st sample.carol_waits)) with [7; 8].
    rewrite !not_elem_of_cons. repeat split; [discriminate..|apply not_elem_of_nil].
Qed.

(** ** Answers *)

(** C3, the code at the failing input: Carol is waiting for the next round,
    yet her answer is recorded: [answers] holds an entry whose username
    belongs to no client in [clients]. *)
Theorem received_answer_from_waiting :
  clients (st sample.carol_waits) = [7; 8] ∧
  waiting (st sample.carol_waits) = [9] ∧
  (λ c, users (st sample.carol_answers) !! c) <$> clients (st sample.carol_answers)
    = [Some "alice"; Some "bob"] ∧
  received_answer 9 0%Z (1 # 2) sample.carol_waits = Ok tt sample.carol_answers ∧
  answers (st sample.carol_answers) = [("carol", 0%Z, 1 # 2)].
Proof.
  split; [|split; [|split; [|split]]]; vm_compute; reflexivity.
Qed.

(** In every world a game reaches, [answers] holds at most one entry per
    username. *)
Lemma answers_one_per_username (rng : nat → nat) (w : World Game) :
  reachable rng w → NoDup (a_username <$> answers (st w)).
Proof. intros Hw. by apply reachable_Inv in Hw as [_ Ha]. Qed.

(** ** The server *)

(** C5, the claim as stated fails: a client that never sent [connect] is
    not a key of [Server.clients], and [client_disconnected] raises
    [KeyError]. *)
Lemma client_disconnected_unmapped_raises :
  server.clients (st sample.served) !! 8 = None ∧
  server.client_disconnected 8 sample.served = Raise KeyError sample.served ∧
  server.client_disconnected 8 sample.served ≠ Ok tt sample.served.
Proof.
  split; [vm_compute; reflexivity|].
  assert (E : server.client_disconnected 8 sample.served = Raise KeyError sample.served)
    by (vm_compute; reflexivity).
  split; [exact E|]. rewrite E. discriminate.
Qed.

(** C5 (amended): for a client that is not mapped to a game,
    [Server.client_disconnected] raises [KeyError] (it is not silent), and it
    leaves the list of games, the routing table and everything else
    unchanged. *)
Theorem client_disconnected_unmapped (client : Client) (w : World server.Server) :
  server.clients (st w) !! client = None →
  server.client_disconnected client w = Raise KeyError w.
Proof.
  intros Hc. unfold server.client_disconnected, server.game_of.
  erewrite bind_Raise; [reflexivity|].
  erewrite bind_Ok by reflexivity. by rewrite Hc.
Qed.

Lemma client_disconnected_unmapped_witness :
  server.client_disconnected 8 sample.served = Raise KeyError sample.served.
Proof.
  apply (client_disconnected_unmapped 8 sample.served). vm_compute. reflexivity.
Defined.

(** ** The track pool: [available_tracks] *)

Lemma available_tracks_S fuel (w : World Game) :
  available_tracks (S fuel) w =
  if length (all_tracks (st w)) =? 0 then Raise AssertionError w
  else if (size (unused (st w)) =? 0) || (size (unused (st w)) <? NUMBER_OF_ALTERNATIVES)
       then available_tracks fuel (reset_used w)
       else Ok (unused (st w)) w.
Proof.
  cbn [available_tracks]. unfold mbind, M_bind, bind, get, py_assert, unused.
  destruct (length (all_tracks (st w)) =? 0); simpl; [done|].
  by destruct (_ || _).
Qed.

Lemma unused_reset (w : World Game) :
  unused (st (reset_used w)) = list_to_set (all_tracks (st w)).
Proof. unfold unused. simpl. by rewrite difference_empty_L. Qed.

Lemma size_unused_le (g : Game) :
  size (unused g) ≤ size (list_to_set (all_tracks g) : gset Track).
Proof. apply subseteq_size. unfold unused. by apply subseteq_difference_l. Qed.

Lemma all_tracks_nonempty (g : Game) :
  0 < size (list_to_set (all_tracks g) : gset Track) →
  (length (all_tracks g) =? 0) = false.
Proof.
  intros Hs. destruct (all_tracks g); [|done].
  rewrite list_to_set_nil, size_empty in Hs. lia.
Qed.

Lemma available_tracks_never_returns fuel (w : World Game) :
  (length (all_tracks (st w)) =? 0) = false →
  size (list_to_set (all_tracks (st w)) : gset Track) < NUMBER_OF_ALTERNATIVES →
  available_tracks fuel w = Diverge.
Proof.
  revert w. induction fuel as [|fuel IH]; intros w Hlen Hs; [done|].
  rewrite available_tracks_S, Hlen.
  pose proof (size_unused_le (st w)) as Hle.
  assert (E : (size (unused (st w)) <? NUMBER_OF_ALTERNATIVES) = true).
  { apply Nat.ltb_lt. lia. }
  rewrite E, orb_true_r. by apply IH.
Qed.


Lemma available_tracks_fresh (fuel : nat) (w : World Game) :
  NUMBER_OF_ALTERNATIVES ≤ size (unused (st w)) →
  available_tracks (S fuel) w = Ok (unused (st w)) w.
Proof.
  intros Hfresh.
  assert (HN : 0 < NUMBER_OF_ALTERNATIVES) by (unfold NUMBER_OF_ALTERNATIVES; lia).
  pose proof (size_unused_le (st w)) as Hle.
  rewrite available_tracks_S, all_tracks_nonempty by lia.
  assert (E0 : (size (unused (st w)) =? 0) = false) by (apply Nat.eqb_neq; lia).
  assert (E1 : (size (unused (st w)) <? NUMBER_OF_ALTERNATIVES) = false)
    by (apply Nat.ltb_ge; lia).
  by rewrite E0, E1.
Qed.



(** ** Choices: [generate_choices] *)

Lemma available_tracks_Ok (fuel : nat) (w w1 : World Game) (A : gset Track) :
  available_tracks fuel w = Ok A w1 →
  rpos w1 = rpos w ∧ outbox w1 = outbox w ∧ core (st w1) = core (st w) ∧
  NUMBER_OF_ALTERNATIVES ≤ size A ∧
  ∀ f r o, available_tracks (S f) (Build_World (st w1) r o) = Ok A (Build_World (st w1) r o).
Proof.
  revert w. induction fuel as [|fuel IH]; intros w H; [done|].
  rewrite available_tracks_S in H.
  destruct (length (all_tracks (st w)) =? 0) eqn:Hlen; [done|].
  destruct (_ || _) eqn:Hcond.
  - by apply IH in H.
  - inversion H; subst. apply orb_false_elim in Hcond as [_ Hlt].
    apply Nat.ltb_ge in Hlt. repeat split; [done|].
    intros f r o. rewrite available_tracks_S. simpl. rewrite Hlen.
    assert (E0 : (size (unused (st w1)) =? 0) = false).
    { apply Nat.eqb_neq. unfold NUMBER_OF_ALTERNATIVES in Hlt. lia. }
    assert (E1 : (size (unused (st w1)) <? NUMBER_OF_ALTERNATIVES) = false)
      by by apply Nat.ltb_ge.
    by rewrite E0, E1.
Qed.

Lemma available_tracks_mono (fuel fuel' : nat) (w w1 : World Game) (A : gset Track) :
  available_tracks fuel w = Ok A w1 → fuel ≤ fuel' →
  available_tracks fuel' w = Ok A w1.
Proof.
  revert fuel' w. induction fuel as [|fuel IH]; intros fuel' w H Hle; [done|].
  destruct fuel' as [|fuel']; [lia|].
  rewrite available_tracks_S in H. rewrite available_tracks_S.
  destruct (length (all_tracks (st w)) =? 0); [done|].
  destruct (_ || _); [|done]. apply IH; [done|lia].
Qed.

Lemma filter_artist_nil (t : Track) (tracks : list Track) :
  filter (λ t', artist t' = artist t) tracks = [] ↔ artist t ∉ artist <$> tracks.
Proof.
  split.
  - intros Hf Hin. apply list_elem_of_fmap in Hin as (t' & Ht' & Hin).
    assert (t' ∈ filter (λ t', artist t' = artist t) tracks) as Hin'
      by by apply list_elem_of_filter.
    rewrite Hf in Hin'. by apply not_elem_of_nil in Hin'.
  - intros Hn. apply elem_of_nil_inv. intros t' Hin.
    apply list_elem_of_filter in Hin as [Ha Hin].
    apply Hn. rewrite <- Ha. apply list_elem_of_fmap. eauto.
Qed.

Section Pool.

Variable rng : nat → nat.
Variable g : Game.
Variable A : gset Track.
Hypothesis stable :
  ∀ f r o, available_tracks (S f) (Build_World g r o) = Ok A (Build_World g r o).
Hypothesis enough : NUMBER_OF_ALTERNATIVES ≤ size A.

Lemma pool_draw (x : nat) : ∃ t, elements A !! (x `mod` size A) = Some t ∧ t ∈ A.
Proof.
  assert (Hlt : x `mod` size A < length (elements A)).
  { change (length (elements A)) with (size A).
    apply Nat.mod_upper_bound. unfold NUMBER_OF_ALTERNATIVES in enough. lia. }
  apply lookup_lt_is_Some in Hlt as [t Ht]. exists t. split; [done|].
  apply elem_of_elements. by eapply list_elem_of_lookup_2.
Qed.

Lemma generate_choices_loop_S (fuel : nat) (tracks : list Track) (r : nat) o :
  generate_choices_loop rng (S fuel) tracks (Build_World g r o) =
  if length tracks =? NUMBER_OF_ALTERNATIVES then Ok tracks (Build_World g r o)
  else match elements A !! (rng r `mod` size A) with
       | Some t => generate_choices_loop rng fuel (extend tracks t) (Build_World g (S r) o)
       | None => Raise IndexError (Build_World g (S r) o)
       end.
Proof.
  cbn [generate_choices_loop].
  destruct (length tracks =? NUMBER_OF_ALTERNATIVES); [done|].
  erewrite bind_Ok by apply stable.
  unfold random_choice, mbind, M_bind, bind, randbelow. simpl.
  change (length (elements A)) with (size A).
  destruct (elements A !! (rng r `mod` size A)) as [t|]; [|done].
  unfold ret, extend.
  case_bool_decide as Hin.
  - rewrite bool_decide_eq_true_2; [done|].
    apply list_elem_of_fmap. eauto.
  - case_bool_decide as Hf.
    + rewrite bool_decide_eq_true_2; [done|].
      apply dec_stable. intros Hn. apply Hf. by apply filter_artist_nil.
    + rewrite bool_decide_eq_false_2; [done|]. by apply filter_artist_nil.
Qed.

Variable seed : Track.
Variable o : list (Client * Message).


Lemma extend_inv (tracks : list Track) (t : Track) :
  length tracks ≠ NUMBER_OF_ALTERNATIVES → loop_inv seed tracks → loop_inv seed (extend tracks t).
Proof.
  intros Hlen (Hnd & Hseed & Hle). unfold extend. case_bool_decide as Hin; [done|].
  split; [|split].
  - rewrite fmap_app. apply NoDup_app. split; [done|]. split; [|apply NoDup_singleton].
    intros x Hx Hx'. apply list_elem_of_singleton in Hx'. by subst.
  - apply elem_of_app. by left.
  - rewrite length_app. simpl. lia.
Qed.

Lemma generate_choices_loop_sound (fuel : nat) (tracks : list Track) (r : nat) res w' :
  loop_inv seed tracks →
  generate_choices_loop rng fuel tracks (Build_World g r o) = Ok res w' →
  loop_inv seed res ∧ length res = NUMBER_OF_ALTERNATIVES ∧ st w' = g ∧ outbox w' = o.
Proof.
  revert tracks r. induction fuel as [|fuel IH]; intros tracks r Hinv H; [done|].
  rewrite generate_choices_loop_S in H.
  destruct (length tracks =? NUMBER_OF_ALTERNATIVES) eqn:Hlen.
  - inversion H; subst. by apply Nat.eqb_eq in Hlen.
  - apply Nat.eqb_neq in Hlen.
    destruct (elements A !! (rng r `mod` size A)) as [t|]; [|done].
    eapply IH; [|exact H]. by apply extend_inv.
Qed.

Lemma generate_choices_loop_mono (fuel fuel' : nat) (tracks : list Track) (r : nat) res w' :
  generate_choices_loop rng fuel tracks (Build_World g r o) = Ok res w' →
  fuel ≤ fuel' →
  generate_choices_loop rng fuel' tracks (Build_World g r o) = Ok res w'.
Proof.
  revert fuel' tracks r. induction fuel as [|fuel IH]; intros fuel' tracks r H Hle; [done|].
  destruct fuel' as [|fuel']; [lia|].
  rewrite generate_choices_loop_S in H. rewrite generate_choices_loop_S.
  destruct (length tracks =? NUMBER_OF_ALTERNATIVES); [done|].
  destruct (elements A !! (rng r `mod` size A)) as [t|]; [|done].
  apply IH; [done|lia].
Qed.

Section Termination.

Hypothesis rng_fair : fair rng (size A).
Variable ts : list Track.
Hypothesis ts_enough : NUMBER_OF_ALTERNATIVES ≤ length ts.
Hypothesis ts_artists : NoDup (artist <$> ts).
Hypothesis ts_pool : ∀ t, t ∈ ts → t ∈ A.

(** While fewer than [NUMBER_OF_ALTERNATIVES] tracks are chosen, the pool
    holds a track by an artist not chosen yet. *)
Lemma fresh_artist (tracks : list Track) :
  length tracks < NUMBER_OF_ALTERNATIVES →
  ∃ t, t ∈ A ∧ artist t ∉ artist <$> tracks.
Proof.
  intros Hlen.
  destruct (decide (Forall (λ t, artist t ∈ artist <$> tracks) ts)) as [Hall|Hex].
  - exfalso.
    assert (Hsub : artist <$> ts ⊆+ artist <$> tracks).
    { apply NoDup_submseteq; [done|]. intros a Ha.
      apply list_elem_of_fmap in Ha as (t & -> & Ht).
      rewrite Forall_forall in Hall. by apply Hall. }
    apply submseteq_length in Hsub. rewrite !length_fmap in Hsub. lia.
  - apply not_Forall_Exists in Hex; [|apply _].
    apply Exists_exists in Hex as (t & Ht & Hfresh). exists t. split; [by apply ts_pool|done].
Qed.

Lemma generate_choices_loop_terminates (n : nat) :
  ∀ (tracks : list Track) (r : nat),
    loop_inv seed tracks → length tracks + n = NUMBER_OF_ALTERNATIVES →
    ∃ fuel res r', generate_choices_loop rng fuel tracks (Build_World g r o)
                   = Ok res (Build_World g r' o).
Proof.
  induction n as [|n IHn]; intros tracks r Hinv Hlen.
  - exists 1, tracks, r. rewrite generate_choices_loop_S.
    assert (E : (length tracks =? NUMBER_OF_ALTERNATIVES) = true) by (apply Nat.eqb_eq; lia).
    by rewrite E.
  - destruct (fresh_artist tracks) as (t & HtA & Hfresh); [lia|].
    apply elem_of_elements, list_elem_of_lookup_1 in HtA as [i Hi].
    assert (Hi' : i < size A) by by apply lookup_lt_Some in Hi.
    destruct (rng_fair r i Hi') as (k & Hk & Hdraw).
    assert (Hne : (length tracks =? NUMBER_OF_ALTERNATIVES) = false)
      by (apply Nat.eqb_neq; lia).
    assert (Hgo : ∀ d r0, r0 + d = k →
      ∃ fuel res r', generate_choices_loop rng fuel tracks (Build_World g r0 o)
                     = Ok res (Build_World g r' o)).
    { induction d as [|d IHd]; intros r0 Hr0.
      - assert (r0 = k) as -> by lia.
        destruct (IHn (tracks ++ [t]) (S k)) as (fuel & res & r' & Hrun).
        { pose proof (extend_inv tracks t) as He. unfold extend in He.
          rewrite bool_decide_eq_false_2 in He by done. apply He; [lia|done]. }
        { rewrite length_app. simpl. lia. }
        exists (S fuel), res, r'. rewrite generate_choices_loop_S, Hne, Hdraw, Hi.
        unfold extend. by rewrite bool_decide_eq_false_2.
      - destruct (pool_draw (rng r0)) as (t' & Ht' & _).
        destruct (decide (artist t' ∈ artist <$> tracks)) as [Hin|Hnin].
        + destruct (IHd (S r0)) as (fuel & res & r' & Hrun); [lia|].
          exists (S fuel), res, r'. rewrite generate_choices_loop_S, Hne, Ht'.
          unfold extend. by rewrite bool_decide_eq_true_2.
        + destruct (IHn (tracks ++ [t']) (S r0)) as (fuel & res & r' & Hrun).
          { pose proof (extend_inv tracks t') as He. unfold extend in He.
            rewrite bool_decide_eq_false_2 in He by done. apply He; [lia|done]. }
          { rewrite length_app. simpl. lia. }
          exists (S fuel), res, r'. rewrite generate_choices_loop_S, Hne, Ht'.
          unfold extend. by rewrite bool_decide_eq_false_2. }
    apply (Hgo (k - r) r). lia.
Qed.

End Termination.
End Pool.

(** [random.shuffle] permutes. *)

Lemma insert_cons_Permutation {T} (l : list T) (j : nat) (a b : T) :
  l !! j = Some b → b :: <[j:=a]> l ≡ₚ a :: l.
Proof.
  revert j. induction l as [|x l IH]; intros [|j] H; simplify_eq/=.
  - apply Permutation_swap.
  - rewrite Permutation_swap, (IH j H). apply Permutation_swap.
Qed.

Lemma swap_Permutation {T} (x : list T) (i j : nat) : swap x i j ≡ₚ x.
Proof.
  unfold swap. destruct (x !! i) as [a|] eqn:Hi; [|done].
  destruct (x !! j) as [b|] eqn:Hj; [|done].
  assert (Hj' : <[i:=b]> x !! j = Some b).
  { destruct (decide (i = j)) as [->|Hne].
    - apply list_lookup_insert_eq. by apply lookup_lt_Some in Hi.
    - by rewrite list_lookup_insert_ne. }
  apply Permutation_cons_inv with b.
  rewrite (insert_cons_Permutation _ j a b Hj').
  apply (insert_cons_Permutation x i b a Hi).
Qed.

Lemma shuffle_from_Ok {St T} (rng : nat → nat) (i : nat) (x : list T) (w : World St) :
  ∃ res r', shuffle_from rng i x w = Ok res (Build_World (st w) r' (outbox w)) ∧ res ≡ₚ x.
Proof.
  revert x w. induction i as [|i IH]; intros x w; simpl.
  - exists x, (rpos w). by destruct w.
  - destruct (IH (swap x (S i) (rng (rpos w) `mod` S (S i)))
                 (Build_World (st w) (S (rpos w)) (outbox w))) as (res & r' & Hrun & Hperm).
    exists res, r'. split.
    + erewrite bind_Ok by reflexivity. exact Hrun.
    + by rewrite Hperm, swap_Permutation.
Qed.

Lemma choices_ok_Permutation (seed : Track) (tracks res : list Track) :
  res ≡ₚ tracks → loop_inv seed tracks → length tracks = NUMBER_OF_ALTERNATIVES →
  choices_ok seed res.
Proof.
  intros Hperm (Hnd & Hseed & _) Hlen. unfold choices_ok.
  rewrite Hperm. split; [done|]. split; [by eapply NoDup_fmap_1|done].
Qed.

(** Every list [generate_choices] returns is right, whatever the draws. *)
Lemma generate_choices_sound (rng : nat → nat) (fuel : nat) (seed : Track) (w : World Game) chs w' :
  generate_choices rng fuel seed w = Ok chs w' → choices_ok seed chs.
Proof.
  unfold generate_choices. intros H.
  destruct (available_tracks fuel w) as [A w1| |] eqn:Hav;
    [|by rewrite (bind_Raise _ _ _ _ _ Hav) in H|by rewrite (bind_Diverge _ _ _ Hav) in H].
  rewrite (bind_Ok _ _ _ _ _ Hav) in H.
  apply available_tracks_Ok in Hav as (_ & _ & _ & Hsize & Hstable).
  assert (E : (NUMBER_OF_ALTERNATIVES <=? size A) = true) by by apply Nat.leb_le.
  rewrite E in H. simpl in H. erewrite bind_Ok in H by reflexivity.
  destruct w1 as [g1 r1 o1]. simpl in Hstable.
  destruct (generate_choices_loop rng fuel [seed] (Build_World g1 r1 o1))
    as [tracks w2| |] eqn:Hloop;
    [|by rewrite (bind_Raise _ _ _ _ _ Hloop) in H|by rewrite (bind_Diverge _ _ _ Hloop) in H].
  rewrite (bind_Ok _ _ _ _ _ Hloop) in H.
  apply (generate_choices_loop_sound rng g1 A Hstable Hsize seed) in Hloop
    as (Hinv & Hlen & _ & _).
  - destruct (shuffle_from_Ok rng (length tracks - 1) tracks w2) as (res & r' & Hsh & Hperm).
    unfold random_shuffle in H. rewrite Hsh in H. inversion H; subst.
    by eapply choices_ok_Permutation.
  - split; [apply NoDup_singleton|]. split; [by apply list_elem_of_singleton|].
    simpl. unfold NUMBER_OF_ALTERNATIVES. lia.
Qed.


Lemma counting_fair (m : nat) : fair sample.counting m.
Proof.
  intros n i Hi. exists (i + n * m). split; [nia|].
  unfold sample.counting. rewrite Nat.Div0.mod_add. by apply Nat.mod_small.
Qed.


(** ** Ending a round *)

Lemma insert_by_time_Permutation (a : Answer) (l : list Answer) :
  insert_by_time a l ≡ₚ a :: l.
Proof.
  induction l as [|b l IH]; simpl; [done|].
  destruct (Qle_bool (a_time a) (a_time b)); [done|].
  by rewrite IH, Permutation_swap.
Qed.

Lemma sorted_by_time_Permutation (l : list Answer) : sorted_by_time l ≡ₚ l.
Proof.
  induction l as [|a l IH]; simpl; [done|].
  by rewrite insert_by_time_Permutation, IH.
Qed.

Lemma insert_by_time_Sorted (a : Answer) (l : list Answer) :
  Sorted time_le l → Sorted time_le (insert_by_time a l).
Proof.
  induction 1 as [|b l Hs IH Hb]; simpl; [by repeat constructor|].
  destruct (Qle_bool (a_time a) (a_time b)) eqn:E.
  - apply Qle_bool_iff in E. by repeat constructor.
  - assert (Hba : time_le b a).
    { unfold time_le. destruct (Qlt_le_dec (a_time b) (a_time a)) as [Hlt|Hle].
      - by apply Qlt_le_weak.
      - apply Qle_bool_iff in Hle. congruence. }
    constructor; [done|].
    destruct Hb as [|c l' Hbc]; simpl; [by constructor|].
    destruct (Qle_bool (a_time a) (a_time c)); by constructor.
Qed.

Lemma sorted_by_time_Sorted (l : list Answer) : Sorted time_le (sorted_by_time l).
Proof.
  induction l as [|a l IH]; simpl; [constructor|]. by apply insert_by_time_Sorted.
Qed.

(** Stability: answers with the same time keep the order of arrival. *)
Lemma insert_by_time_stable (q : Q) (a : Answer) (l : list Answer) :
  filter (λ b, Qeq_bool (a_time b) q = true) (insert_by_time a l) =
  filter (λ b, Qeq_bool (a_time b) q = true) (a :: l).
Proof.
  induction l as [|b l IH]; simpl; [done|].
  destruct (Qle_bool (a_time a) (a_time b)) eqn:E; [done|].
  rewrite filter_cons, IH, !filter_cons.
  destruct (decide (Qeq_bool (a_time b) q = true)) as [Hb|Hb];
    destruct (decide (Qeq_bool (a_time a) q = true)) as [Ha|Ha]; try done.
  exfalso. apply Qeq_bool_iff in Ha, Hb.
  assert (Hle : (a_time a <= a_time b)%Q) by (rewrite Ha, Hb; apply Qle_refl).
  apply Qle_bool_iff in Hle. congruence.
Qed.

Lemma sorted_by_time_stable (q : Q) (l : list Answer) :
  filter (λ b, Qeq_bool (a_time b) q = true) (sorted_by_time l) =
  filter (λ b, Qeq_bool (a_time b) q = true) l.
Proof.
  induction l as [|a l IH]; simpl; [done|].
  by rewrite insert_by_time_stable, !filter_cons, IH.
Qed.

Lemma end_round_loop_scorable (correct : list Answer) (winner : option string)
    (w : World Game) :
  Forall scorable correct →
  end_round_loop correct winner w =
  Ok (match head correct with
      | Some a => if falsy winner then Some (a_username a) else winner
      | None => winner
      end)
     (Build_World
        (set_score (score (st w) ++
                    ((λ a, (a_username a, pointsFor_spec (a_time a))) <$> correct)) (st w))
        (rpos w) (outbox w)).
Proof.
  revert winner w. induction correct as [|a l IH]; intros winner w Hall; simpl.
  - rewrite app_nil_r. by destruct w as [[] ? ?].
  - apply Forall_cons in Hall as [[Hname Hpts] Hall].
    rewrite Hpts. erewrite bind_Ok by reflexivity.
    erewrite bind_Ok by reflexivity. rewrite IH by done. simpl.
    rewrite <- app_assoc. simpl.
    assert (E : falsy (if falsy winner then Some (a_username a) else winner) = false).
    { destruct (falsy winner) eqn:Ew; [|done]. simpl. by apply bool_decide_eq_false_2. }
    rewrite E. by destruct l.
Qed.

(** Where every correct answer is scorable, [end_round] does what the
    specification says of it. *)
Lemma end_round_ranks (w : World Game) (k : nat) :
  correct_answer (st w) = Some k →
  Forall scorable (ranked (st w) k) →
  ∃ w', end_round w = Ok tt w' ∧
    score (st w') = score (st w) ++
      ((λ a, (a_username a, pointsFor_spec (a_time a))) <$> ranked (st w) k) ∧
    is_running (st w') = false ∧ answers (st w') = [] ∧
    outbox w' = outbox w ++
      ((λ c, (c, MsgEndRound (a_username <$> head (ranked (st w) k)) (score (st w'))))
         <$> clients (st w)) ++
      ((λ c, (c, MsgIntermission INTERMISSION_TIMEOUT (enough_players (st w))
                                 (enough_tracks (st w)))) <$> clients (st w)).
Proof.
  intros Hk Hall. unfold end_round.
  erewrite bind_Ok by reflexivity. erewrite bind_Ok by reflexivity.
  erewrite bind_Ok by reflexivity. erewrite bind_Ok by reflexivity.
  cbn [st rpos outbox].
  assert (Hf : ∀ w0 : World Game, correct_answer (st w0) = Some k →
    filter_correct (sorted_by_time (answers (st w))) w0 = Ok (ranked (st w) k) w0).
  { intros w0 Hk0. unfold filter_correct, ranked.
    destruct (sorted_by_time (answers (st w))) as [|a l]; [done|].
    erewrite bind_Ok by reflexivity. by rewrite Hk0. }
  erewrite bind_Ok by (apply Hf; exact Hk).
  erewrite bind_Ok by (by apply end_round_loop_scorable).
  erewrite bind_Ok by reflexivity.
  erewrite bind_Ok by apply notify_clients_eq.
  rewrite intermission_eq. eexists. split; [reflexivity|].
  simpl. rewrite <- app_assoc. by repeat split.
Qed.

(** C6, the code at the failing input: two players chose the correct index,
    the faster one under the username [""]. Both get their points, in the
    order of their times, but the winner announced is Bob: [if not winner]
    takes the empty username for no winner yet. *)
Theorem end_round_winner_skips_empty_username :
  correct_answer (st sample.both_answered) = Some 3 ∧
  answers (st sample.both_answered) = [("", 3%Z, 1 # 2); ("bob", 3%Z, 3 # 2)] ∧
  match end_round sample.both_answered with
  | Ok _ w' =>
      score (st w') = [("", 89%Z); ("bob", 55%Z)] ∧
      drop (length (outbox sample.both_answered)) (outbox w') =
        [(7, MsgEndRound (Some "bob") [("", 89%Z); ("bob", 55%Z)]);
         (8, MsgEndRound (Some "bob") [("", 89%Z); ("bob", 55%Z)]);
         (9, MsgEndRound (Some "bob") [("", 89%Z); ("bob", 55%Z)]);
         (7, MsgIntermission 3 true true); (8, MsgIntermission 3 true true);
         (9, MsgIntermission 3 true true)]
  | _ => False
  end.
Proof.
  split; [vm_compute; reflexivity|]. split; [vm_compute; reflexivity|].
  vm_compute. split; reflexivity.
Qed.

(** A correct answer in the bucket [len(POINTS)]: [time_to_points] raises
    inside the loop of [end_round]; no points are appended, nothing is sent,
    and the game is left out of a round with every delayed call cancelled. *)
Lemma end_round_late_answer_raises :
  answers (st sample.late_answer) = [("bob", 3%Z, 21 # 2)] ∧
  match end_round sample.late_answer with
  | Raise e w' =>
      e = IndexError ∧ score (st w') = [] ∧ is_running (st w') = false ∧
      outbox w' = outbox sample.late_answer ∧
      dc_active <$> callbacks (st w') = [false; false]
  | _ => False
  end.
Proof.
  split; [vm_compute; reflexivity|].
  vm_compute. split; [|split; [|split; [|split]]]; reflexivity.
Qed.

(** ** Methods and the fields they leave alone *)

Section Frames.
Context {T : Type} (f : Game → T).

Lemma frames_ret {A} (a : A) : frames f (ret a).
Proof. by intros w. Qed.

Lemma frames_bind {A B} (m : M Game A) (k : A → M Game B) :
  frames f m → (∀ a, frames f (k a)) → frames f (m ≫= k).
Proof.
  intros Hm Hk w. apply wp_bind.
  eapply wp_mono; [apply Hm| |done].
  intros a w' Hc. cbn beta.
  eapply wp_mono; [apply Hk| |]; cbn beta; intros; congruence.
Qed.

Lemma frames_get : frames f get.
Proof. by intros w. Qed.

Lemma frames_modify (h : Game → Game) :
  (∀ g, f (h g) = f g) → frames f (modify h).
Proof. intros Hh w. apply wp_modify. apply Hh. Qed.

Lemma frames_send c d : frames f (send c d).
Proof. by intros w. Qed.

Lemma frames_raise {A} e : frames f (raise (A := A) e).
Proof. by intros w. Qed.

Lemma frames_diverge {A} : frames f (diverge (A := A)).
Proof. by intros w. Qed.

Lemma frames_lift_res {A} (r : res A) : frames f (lift_res r).
Proof. destruct r; [apply frames_ret | apply frames_raise]. Qed.

Lemma frames_assert b : frames f (py_assert b).
Proof. destruct b; [apply frames_ret | apply frames_raise]. Qed.

Lemma frames_randbelow (rng : nat → nat) n : frames f (randbelow rng n).
Proof. by intros w. Qed.

Lemma frames_random_choice {A} (rng : nat → nat) (l : list A) :
  frames f (random_choice rng l).
Proof.
  apply frames_bind; [apply frames_randbelow|]. intros i.
  destruct (l !! i); [apply frames_ret | apply frames_raise].
Qed.

Lemma frames_random_shuffle {A} (rng : nat → nat) (x : list A) :
  frames f (random_shuffle rng x).
Proof.
  unfold random_shuffle. generalize (length x - 1). intros i. revert x.
  induction i as [|i IH]; intros x; simpl; [apply frames_ret|].
  apply frames_bind; [apply frames_randbelow|]. intros j. apply IH.
Qed.

Lemma frames_notify_clients d : frames f (notify_clients d).
Proof.
  unfold notify_clients. apply frames_bind; [apply frames_get|]. intros g.
  induction (clients g) as [|c l IH]; simpl; [apply frames_ret|].
  apply frames_bind; [apply frames_send|]. intros _. apply IH.
Qed.

Lemma frames_stop_callbacks : blind_callbacks f → frames f stop_callbacks.
Proof. intros Hb. apply frames_modify. intros g. apply Hb. Qed.

Lemma frames_call_later delay cb : blind_callbacks f → frames f (call_later delay cb).
Proof. intros Hb. apply frames_modify. intros g. apply Hb. Qed.

Lemma frames_intermission timeout : blind_callbacks f → frames f (intermission timeout).
Proof.
  intros Hb. unfold intermission.
  apply frames_bind; [apply frames_get|]. intros g.
  apply frames_bind; [apply frames_notify_clients|]. intros _.
  apply frames_bind; [by apply frames_stop_callbacks|]. intros _.
  by apply frames_call_later.
Qed.

Lemma frames_available_tracks fuel : blind_used_tracks f → frames f (available_tracks fuel).
Proof.
  intros Hb. induction fuel as [|fuel IH]; simpl; [apply frames_diverge|].
  apply frames_bind; [apply frames_get|]. intros g.
  apply frames_bind; [apply frames_assert|]. intros _.
  destruct (_ || _); [|apply frames_ret].
  apply frames_bind; [|by intros _]. apply frames_modify. intros g'. apply Hb.
Qed.

Lemma frames_select_track rng fuel : blind_used_tracks f → frames f (select_track rng fuel).
Proof.
  intros Hb. unfold select_track.
  apply frames_bind; [by apply frames_available_tracks|]. intros A.
  apply frames_random_choice.
Qed.

Lemma frames_generate_choices_loop rng fuel tracks :
  blind_used_tracks f → frames f (generate_choices_loop rng fuel tracks).
Proof.
  intros Hb. revert tracks.
  induction fuel as [|fuel IH]; intros tracks; [apply frames_diverge|].
  cbn [generate_choices_loop].
  destruct (length tracks =? NUMBER_OF_ALTERNATIVES); [apply frames_ret|].
  apply frames_bind; [by apply frames_available_tracks|]. intros A.
  apply frames_bind; [apply frames_random_choice|]. intros t.
  repeat case_bool_decide; apply IH.
Qed.

Lemma frames_generate_choices rng fuel track :
  blind_used_tracks f → frames f (generate_choices rng fuel track).
Proof.
  intros Hb. unfold generate_choices.
  apply frames_bind; [by apply frames_available_tracks|]. intros A.
  apply frames_bind; [apply frames_assert|]. intros _.
  apply frames_bind; [by apply frames_generate_choices_loop|]. intros tracks.
  apply frames_random_shuffle.
Qed.

Lemma frames_add_tracks client tracks : blind_all_tracks f → frames f (add_tracks client tracks).
Proof.
  intros Hb. unfold add_tracks. induction tracks as [|t l IH]; simpl; [apply frames_ret|].
  apply frames_bind; [apply frames_get|]. intros g.
  apply frames_bind; [|by intros _].
  case_bool_decide; [apply frames_ret|]. apply frames_modify. intros g'. apply Hb.
Qed.

Lemma frames_end_round_loop correct winner :
  blind_score f → frames f (end_round_loop correct winner).
Proof.
  intros Hb. revert winner. induction correct as [|a l IH]; intros winner; simpl;
    [apply frames_ret|].
  apply frames_bind; [apply frames_lift_res|]. intros p.
  apply frames_bind; [|by intros _]. apply frames_modify. intros g. apply Hb.
Qed.

Lemma frames_filter_correct answers : frames f (filter_correct answers).
Proof.
  unfold filter_correct. destruct answers; [apply frames_ret|].
  apply frames_bind; [apply frames_get|]. intros g.
  destruct (correct_answer g); [apply frames_ret | apply frames_raise].
Qed.

End Frames.

(** The game id is never reassigned. *)

Ltac frames_id_step :=
  match goal with
  | |- frames _ (_ ≫= _) => apply frames_bind; [|intros ?]
  | |- frames _ (ret _) => apply frames_ret
  | |- frames _ get => apply frames_get
  | |- frames _ (raise _) => apply frames_raise
  | |- frames _ diverge => apply frames_diverge
  | |- frames _ (py_assert _) => apply frames_assert
  | |- frames _ (lift_res _) => apply frames_lift_res
  | |- frames _ (send _ _) => apply frames_send
  | |- frames _ (modify _) => apply frames_modify; intros ?; reflexivity
  | |- frames _ (notify_clients _) => apply frames_notify_clients
  | |- frames _ (filter_correct _) => apply frames_filter_correct
  | |- frames _ (intermission _) => apply frames_intermission; intros ??; reflexivity
  | |- frames _ stop_callbacks => apply frames_stop_callbacks; intros ??; reflexivity
  | |- frames _ (call_later _ _) => apply frames_call_later; intros ??; reflexivity
  | |- frames _ (available_tracks _) =>
      apply frames_available_tracks; intros ??; reflexivity
  | |- frames _ (select_track _ _) => apply frames_select_track; intros ??; reflexivity
  | |- frames _ (generate_choices _ _ _) =>
      apply frames_generate_choices; intros ??; reflexivity
  | |- frames _ (add_tracks _ _) => apply frames_add_tracks; intros ??; reflexivity
  | |- frames _ (end_round_loop _ _) =>
      apply frames_end_round_loop; intros ??; reflexivity
  | |- frames _ (if ?b then _ else _) => destruct b
  | |- frames _ (match ?o with Some _ => _ | None => _ end) => destruct o
  | |- frames _ (match ?o with Val _ => _ | Exc _ => _ end) => destruct o
  end.

Lemma frames_id_end_round : frames id end_round.
Proof. unfold end_round. repeat frames_id_step. Qed.

Lemma frames_id_start_round rng fuel : frames id (start_round rng fuel).
Proof.
  unfold start_round, cancel_intermission, join_players. repeat frames_id_step.
Qed.

Lemma frames_id_handle rng fuel ev : frames id (handle rng fuel ev).
Proof.
  destruct ev; simpl.
  - unfold add_client.
    repeat first [frames_id_step | apply frames_id_start_round].
  - unfold remove_client.
    repeat first [frames_id_step | apply frames_id_end_round].
  - repeat frames_id_step.
  - unfold received_answer.
    repeat first [frames_id_step | apply frames_id_end_round].
  - unfold fire, round_timedout.
    repeat first [frames_id_step | apply frames_id_start_round | apply frames_id_end_round].
Qed.

(** ** Reporting tracks: [add_tracks] *)

Lemma add_tracks_eq (client : Client) (tracks : list Track) (w : World Game) :
  add_tracks client tracks w =
  Ok tt (Build_World (set_all_tracks (merge_tracks (all_tracks (st w)) tracks) (st w))
                     (rpos w) (outbox w)).
Proof.
  revert w. unfold add_tracks. induction tracks as [|t l IH]; intros w; simpl.
  - by destruct w as [[] ? ?].
  - erewrite bind_Ok by reflexivity. case_bool_decide.
    + erewrite bind_Ok by reflexivity. by rewrite IH.
    + erewrite bind_Ok by reflexivity. by rewrite IH.
Qed.

Lemma merge_tracks_prefix (all tracks : list Track) :
  all `prefix_of` merge_tracks all tracks.
Proof.
  revert all. induction tracks as [|t l IH]; intros all; simpl; [done|].
  case_bool_decide; [apply IH|].
  etrans; [|apply IH]. by apply prefix_app_r.
Qed.

Lemma merge_tracks_elem_of (all tracks : list Track) (t : Track) :
  t ∈ merge_tracks all tracks ↔ t ∈ all ∨ t ∈ tracks.
Proof.
  revert all. induction tracks as [|t' l IH]; intros all; simpl.
  - rewrite elem_of_nil. tauto.
  - rewrite IH, elem_of_cons. case_bool_decide as Hin.
    + split; [tauto|]. intros [?|[->|?]]; auto.
    + rewrite elem_of_app, list_elem_of_singleton. tauto.
Qed.

Lemma merge_tracks_NoDup (all tracks : list Track) :
  NoDup all → NoDup (merge_tracks all tracks).
Proof.
  revert all. induction tracks as [|t l IH]; intros all Hnd; simpl; [done|].
  case_bool_decide as Hin; apply IH; [done|].
  apply NoDup_app. split; [done|]. split; [|apply NoDup_singleton].
  intros x Hx Hx'. apply list_elem_of_singleton in Hx'. by subst.
Qed.

Lemma merge_tracks_absorb (all tracks : list Track) :
  (∀ t, t ∈ tracks → t ∈ all) → merge_tracks all tracks = all.
Proof.
  induction tracks as [|t l IH]; intros Hsub; simpl; [done|].
  rewrite bool_decide_eq_true_2 by (apply Hsub; left).
  apply IH. intros t' Ht'. apply Hsub. by right.
Qed.

(** X1: [add_tracks] never fails and changes nothing but [all_tracks]: the
    old list stays as a prefix, the reported tracks that were missing are
    appended, and a list without duplicates stays without duplicates. *)
Theorem add_tracks_merges (client : Client) (tracks : list Track) (w : World Game) :
  NoDup (all_tracks (st w)) →
  ∃ all',
    add_tracks client tracks w =
      Ok tt (Build_World (set_all_tracks all' (st w)) (rpos w) (outbox w)) ∧
    NoDup all' ∧ all_tracks (st w) `prefix_of` all' ∧
    ∀ t, t ∈ all' ↔ t ∈ all_tracks (st w) ∨ t ∈ tracks.
Proof.
  intros Hnd. exists (merge_tracks (all_tracks (st w)) tracks).
  split; [apply add_tracks_eq|]. split; [by apply merge_tracks_NoDup|].
  split; [apply merge_tracks_prefix|]. intros t. apply merge_tracks_elem_of.
Qed.

(** X2: reporting the same tracks a second time changes nothing. *)
Theorem add_tracks_idempotent (client : Client) (tracks : list Track) (w : World Game) :
  (add_tracks client tracks ≫= λ _, add_tracks client tracks) w
  = add_tracks client tracks w.
Proof.
  erewrite bind_Ok by apply add_tracks_eq.
  rewrite !add_tracks_eq. simpl.
  rewrite (merge_tracks_absorb (merge_tracks _ _) tracks); [done|].
  intros t Ht. apply merge_tracks_elem_of. by right.
Qed.

(** ** Scoring is monotone *)

Lemma POINTS_descending (i j : nat) :
  i ≤ j → j < length POINTS → (nth j POINTS 0 ≤ nth i POINTS 0)%Z.
Proof.
  intros Hij Hj. simpl in Hj.
  do 10 (destruct j as [|j]; [do 10 (destruct i as [|i]; [simpl; lia|]); lia|]).
  lia.
Qed.

(** X3: from time 0 on, a slower answer never scores more: if [time_to_points]
    returns for two times [0 <= t1 <= t2], the points for [t2] are at most
    the points for [t1]. *)
Theorem time_to_points_monotone (t1 t2 : Q) (p1 p2 : Z) :
  (0 <= t1)%Q → (t1 <= t2)%Q →
  time_to_points t1 = Val p1 → time_to_points t2 = Val p2 →
  (p2 ≤ p1)%Z.
Proof.
  intros H0 H12 Hp1 Hp2.
  assert (H02 : (0 <= t2)%Q) by by eapply Qle_trans.
  pose proof (Qfloor_resp_le _ _ H12) as Hf.
  assert (Hf0 : (0 ≤ Qfloor t1)%Z).
  { change 0%Z with (Qfloor 0). by apply Qfloor_resp_le. }
  unfold time_to_points in Hp1, Hp2. cbv zeta in Hp1, Hp2.
  rewrite py_int_nonneg in Hp1, Hp2 by done.
  set (n := Z.of_nat (length POINTS)) in *.
  destruct (Z.ltb_spec n (Qfloor t2)) as [Hbig2|Hsmall2].
  - inversion Hp2; subst p2.
    destruct (Z.ltb_spec n (Qfloor t1)); [by inversion Hp1|].
    destruct (Z.le_gt_cases n (Qfloor t1)).
    + rewrite py_getitem_above in Hp1 by done. done.
    + rewrite (py_getitem_nonneg _ _ 0%Z) in Hp1 by lia. inversion Hp1; subst p1.
      pose proof (POINTS_descending (Z.to_nat (Qfloor t1)) 9) as Hd.
      simpl in Hd. change (nth 9 POINTS 0%Z) with 1%Z in Hd.
      unfold n in *. simpl in *. lia.
  - destruct (Z.ltb_spec n (Qfloor t1)); [lia|].
    destruct (Z.le_gt_cases n (Qfloor t2)).
    + rewrite py_getitem_above in Hp2 by done. done.
    + rewrite (py_getitem_nonneg _ _ 0%Z) in Hp1 by lia.
      rewrite (py_getitem_nonneg _ _ 0%Z) in Hp2 by lia.
      inversion Hp1; inversion Hp2; subst.
      apply POINTS_descending; [lia|]. unfold n in *. lia.
Qed.

(** X4: whatever time a client reports, a round gives it at most
    [POINTS[0]] points and never a negative number: when [time_to_points]
    returns, the points lie between 0 and the first entry of [POINTS]. *)
Theorem time_to_points_range (t : Q) (p : Z) :
  time_to_points t = Val p → (0 ≤ p ≤ nth 0 POINTS 0)%Z.
Proof.
  unfold time_to_points, py_getitem. cbv zeta.
  destruct (_ <? py_int t)%Z; [intros [= <-]; simpl; lia|].
  destruct (_ <? 0)%Z; [done|].
  destruct (POINTS !! _) as [a|] eqn:E; [|done]. intros [= <-].
  apply list_elem_of_lookup_2 in E.
  assert (Hall : Forall (λ x, (0 ≤ x ≤ nth 0 POINTS 0)%Z) POINTS)
    by (repeat constructor; simpl; lia).
  rewrite Forall_forall in Hall. by apply Hall.
Qed.

Lemma time_to_points_range_witness :
  time_to_points (-1 # 1) = Val 1%Z ∧ (0 ≤ 1 ≤ nth 0 POINTS 0)%Z.
Proof.
  split; [reflexivity|]. apply (time_to_points_range (-1 # 1) 1). reflexivity.
Defined.

(** ** The pool [available_tracks] returns *)

Lemma available_tracks_used (fuel : nat) (w w1 : World Game) (A : gset Track) :
  available_tracks fuel w = Ok A w1 →
  A = unused (st w1) ∧
  all_tracks (st w1) = all_tracks (st w) ∧
  (used_tracks (st w1) = used_tracks (st w) ∨ used_tracks (st w1) = []).
Proof.
  revert w. induction fuel as [|fuel IH]; intros w H; [done|].
  rewrite available_tracks_S in H.
  destruct (length (all_tracks (st w)) =? 0); [done|].
  destruct (_ || _).
  - apply IH in H as (-> & Hall & Hused). split; [done|]. split; [done|].
    right. by destruct Hused as [->| ->].
  - inversion H; subst. auto.
Qed.

(** X5: whenever [available_tracks] returns, the set it returns holds at
    least [NUMBER_OF_ALTERNATIVES] tracks, all of them known and none of them
    marked used; [used_tracks] is as before or was emptied; and calling it
    again returns the same set and changes nothing more. *)
Theorem available_tracks_pool (fuel : nat) (w w1 : World Game) (A : gset Track) :
  available_tracks fuel w = Ok A w1 →
  NUMBER_OF_ALTERNATIVES ≤ size A ∧
  (∀ t, t ∈ A → t ∈ all_tracks (st w) ∧ t ∉ used_tracks (st w1)) ∧
  (used_tracks (st w1) = used_tracks (st w) ∨ used_tracks (st w1) = []) ∧
  ∀ fuel', available_tracks (S fuel') w1 = Ok A w1.
Proof.
  intros H.
  pose proof (available_tracks_Ok _ _ _ _ H) as (_ & _ & _ & Hsize & Hstable).
  pose proof (available_tracks_used _ _ _ _ H) as (HA & Hall & Hused).
  split; [done|]. split; [|split; [done|]].
  - intros t Ht. subst A. unfold unused in Ht.
    apply elem_of_difference in Ht as [Hin Hnot].
    rewrite elem_of_list_to_set in Hin, Hnot. by rewrite <- Hall.
  - intros fuel'. specialize (Hstable fuel' (rpos w1) (outbox w1)). by destruct w1.
Qed.

Lemma available_tracks_retry (fuel : nat) (w : World Game) :
  NUMBER_OF_ALTERNATIVES ≤ size (list_to_set (all_tracks (st w)) : gset Track) →
  size (unused (st w)) < NUMBER_OF_ALTERNATIVES →
  available_tracks (S (S fuel)) w = Ok (unused (st (reset_used w))) (reset_used w).
Proof.
  intros Hall Hfew.
  rewrite available_tracks_S, all_tracks_nonempty
    by (unfold NUMBER_OF_ALTERNATIVES in Hall; lia).
  assert (E1 : (size (unused (st w)) <? NUMBER_OF_ALTERNATIVES) = true)
    by (apply Nat.ltb_lt; lia).
  rewrite E1, orb_true_r. apply available_tracks_fresh. by rewrite unused_reset.
Qed.

Lemma available_tracks_pool_witness :
  NUMBER_OF_ALTERNATIVES ≤ size (unused (st (reset_used sample.one_played))) ∧
  used_tracks (st (reset_used sample.one_played)) = [] ∧
  available_tracks 1 (reset_used sample.one_played)
    = Ok (unused (st (reset_used sample.one_played))) (reset_used sample.one_played).
Proof.
  assert (H : available_tracks 2 sample.one_played
    = Ok (unused (st (reset_used sample.one_played))) (reset_used sample.one_played)).
  { apply available_tracks_retry; vm_compute; lia. }
  destruct (available_tracks_pool _ _ _ _ H) as (Hsize & _ & _ & Hagain).
  split; [exact Hsize|]. split; [reflexivity|]. apply Hagain.
Defined.

(** ** Answering twice *)

Lemma end_round_stops (w : World Game) :
  wp end_round (λ _ w', is_running (st w') = false)
               (λ _ w', is_running (st w') = false) w.
Proof.
  unfold end_round. apply wp_bind, wp_modify.
  match goal with |- wp ?m _ _ ?w1 =>
    assert (Hf : frames is_running m); [|eapply wp_mono; [apply (Hf w1)| |]; by cbn]
  end.
  repeat frames_id_step.
Qed.

Lemma received_answer_again (client : Client) (answer answer' : Z) (time time' : Q)
    (w w' : World Game) :
  received_answer client answer time w = Ok tt w' →
  received_answer client answer' time' w' = Ok tt w'.
Proof.
  unfold received_answer at 1. erewrite bind_Ok by reflexivity.
  destruct (is_running (st w)) eqn:Hrun; simpl.
  2:{ intros [= <-]. unfold received_answer. erewrite bind_Ok by reflexivity.
      by rewrite Hrun. }
  destruct (users (st w) !! client) as [username|] eqn:Huser; [|done].
  case_bool_decide as Hdup.
  - intros [= <-]. unfold received_answer. erewrite bind_Ok by reflexivity.
    rewrite Hrun, Huser. simpl. by rewrite bool_decide_eq_true_2.
  - erewrite bind_Ok by reflexivity. erewrite bind_Ok by reflexivity.
    cbn [st rpos outbox].
    match goal with |- (if ?b then _ else _) ?w1 = _ → _ => destruct b; set (wa := w1) end.
    + intros Hend. pose proof (end_round_stops wa) as Hstop.
      unfold wp in Hstop. rewrite Hend in Hstop.
      unfold received_answer. erewrite bind_Ok by reflexivity. by rewrite Hstop.
    + intros [= <-]. unfold received_answer. erewrite bind_Ok by reflexivity.
      subst wa. cbn [st]. change (is_running (set_answers _ (st w))) with (is_running (st w)).
      change (users (set_answers _ (st w))) with (users (st w)).
      rewrite Hrun, Huser. simpl. rewrite bool_decide_eq_true_2; [done|].
      intros Hnil.
      assert (Hin : (username, answer, time) ∈
        filter (λ a : Answer, a_username a = username)
               (answers (st w) ++ [(username, answer, time)])).
      { apply list_elem_of_filter. split; [done|].
        apply elem_of_app. right. by apply list_elem_of_singleton. }
      rewrite Hnil in Hin. by apply not_elem_of_nil in Hin.
Qed.


(** ** A player leaves *)

Lemma list_remove_first_Permutation {A} `{EqDecision A} (x : A) (l l' : list A) :
  list_remove_first x l = Val l' → l ≡ₚ x :: l'.
Proof.
  revert l'. induction l as [|y l IH]; intros l' H; simpl in H; [done|].
  destruct (decide (x = y)) as [->|]; [by inversion H|].
  destruct (list_remove_first x l) as [r|]; [|done].
  inversion H; subst. rewrite (IH r) by done. apply Permutation_swap.
Qed.

Lemma list_remove_first_present {A} `{EqDecision A} (x : A) (l : list A) :
  x ∈ l → ∃ l', list_remove_first x l = Val l'.
Proof.
  induction l as [|y l IH]; intros Hx; simpl; [by apply elem_of_nil in Hx|].
  destruct (decide (x = y)); [eauto|].
  apply elem_of_cons in Hx as [?|Hx]; [done|].
  destruct (IH Hx) as [l' ->]. eauto.
Qed.



(** ** The server: placing a player *)

Lemma Game_new_eq {St} (identification : nat) (w : World St) :
  Game_new identification w = Ok (fresh_game identification) w.
Proof.
  unfold Game_new. rewrite intermission_eq. unfold after_intermission. simpl.
  rewrite app_nil_r. by destruct w.
Qed.

Lemma open_filter_full (j : nat → nat) (l : list Game) :
  Forall (λ g, is_full g = true) l →
  filter (λ ig : nat * Game, is_full ig.2 = false) (imap (λ i g, (j i, g)) l) = [].
Proof.
  revert j. induction l as [|g l IH]; intros j Hfull; [done|].
  apply Forall_cons in Hfull as [Hg Hl]. simpl.
  rewrite filter_cons_False by (simpl; congruence).
  apply (IH (j ∘ S) Hl).
Qed.

Lemma open_filter_first (l1 l2 : list Game) (g : Game) :
  Forall (λ g, is_full g = true) l1 → is_full g = false →
  (filter (λ ig : nat * Game, is_full ig.2 = false)
          (imap (λ i g, (i, g)) (l1 ++ g :: l2))).*1 =
  length l1 ::
    (filter (λ ig : nat * Game, is_full ig.2 = false)
            (imap (λ i g, (length l1 + S i, g)) l2)).*1.
Proof.
  intros Hfull Hg. rewrite imap_app, filter_app.
  rewrite (open_filter_full (λ i, i) l1 Hfull). simpl.
  rewrite filter_cons_True by done. simpl. by rewrite Nat.add_0_r.
Qed.

Lemma server_add_client_S (rng : nat → nat) (fuel : nat) (client : Client)
    (username : string) (w : World server.Server) :
  server.add_client rng (S fuel) client username w =
  match open_games (st w) with
  | _ :: _ => server.join_first rng fuel (open_games (st w)) client username w
  | [] =>
      (new_game ← Game_new (server.get_next_game_id (st w));
       modify (λ s, server.set_games (server.games s ++ [new_game]) s);;
       server.add_client rng fuel client username) w
  end.
Proof.
  cbn [server.add_client]. erewrite bind_Ok by reflexivity. unfold open_games.
  by destruct (filter _ _).*1.
Qed.

Lemma join_first_head (rng : nat → nat) (fuel i : nat) (rest : list nat)
    (client : Client) (username : string) (w : World server.Server) (g : Game)
    (gw' : World Game) :
  server.games (st w) !! i = Some g →
  add_client rng fuel client username (Build_World g (rpos w) (outbox w)) = Ok true gw' →
  server.join_first rng fuel (i :: rest) client username w =
  Ok tt (Build_World
           {| server.games := <[i := st gw']> (server.games (st w));
              server.clients := <[client := i]> (server.clients (st w)) |}
           (rpos gw') (outbox gw')).
Proof.
  intros Hg Hadd. cbn [server.join_first]. unfold server.join_game.
  assert (Hat : server.at_game i (add_client rng fuel client username) w =
    Ok true (Build_World (server.set_games (<[i := st gw']> (server.games (st w))) (st w))
                         (rpos gw') (outbox gw'))).
  { unfold server.at_game. by rewrite Hg, Hadd. }
  erewrite bind_Ok; [|erewrite bind_Ok by exact Hat; simpl;
                      erewrite bind_Ok by reflexivity; reflexivity].
  rewrite bool_decide_eq_true_2 by lia. reflexivity.
Qed.

(** X8: [Server.add_client] places the player in the first game that is not
    full: when that game's [add_client] returns, the game is updated in
    place, the client is mapped to its index, and the other games and
    mappings are untouched. *)
Theorem server_add_client_first_open (rng : nat → nat) (fuel i : nat)
    (client : Client) (username : string) (w : World server.Server) (g : Game)
    (gw' : World Game) :
  server.games (st w) !! i = Some g →
  is_full g = false →
  Forall (λ g, is_full g = true) (take i (server.games (st w))) →
  add_client rng fuel client username (Build_World g (rpos w) (outbox w)) = Ok true gw' →
  server.add_client rng (S fuel) client username w =
  Ok tt (Build_World
           {| server.games := <[i := st gw']> (server.games (st w));
              server.clients := <[client := i]> (server.clients (st w)) |}
           (rpos gw') (outbox gw')).
Proof.
  intros Hg Hopen Hfull Hadd. rewrite server_add_client_S.
  assert (Hog : ∃ rest, open_games (st w) = i :: rest).
  { unfold open_games. rewrite <- (take_drop_middle _ _ _ Hg).
    rewrite open_filter_first by done. rewrite length_take_le; [eauto|].
    apply lookup_lt_Some in Hg. lia. }
  destruct Hog as [rest ->]. by eapply join_first_head.
Qed.

Lemma add_client_new_game_eq (rng : nat → nat) (fuel : nat) (client : Client)
    (username : string) (w : World server.Server) :
  Forall (λ g, is_full g = true) (server.games (st w)) →
  server.add_client rng (S (S fuel)) client username w =
  Ok tt (Build_World
           {| server.games :=
                server.games (st w)
                ++ [lone_game (length (server.games (st w))) client username];
              server.clients :=
                <[client := length (server.games (st w))]> (server.clients (st w)) |}
           (rpos w) (outbox w)).
Proof.
  intros Hfull. rewrite server_add_client_S.
  assert (Hnone : open_games (st w) = []).
  { unfold open_games. by rewrite (open_filter_full (λ i, i)). }
  rewrite Hnone. erewrite bind_Ok by apply Game_new_eq.
  erewrite bind_Ok by reflexivity. cbn [st rpos outbox].
  rewrite server_add_client_S.
  set (n := length (server.games (st w))).
  assert (Hone : open_games (server.set_games (server.games (st w) ++ [fresh_game n]) (st w))
                 = [n]).
  { unfold open_games. simpl. by rewrite open_filter_first. }
  unfold server.get_next_game_id. cbn [st rpos outbox]. fold n. rewrite Hone.
  erewrite join_first_head with (g := fresh_game n)
    (gw' := Build_World (lone_game n client username) (rpos w) (outbox w)).
  - simpl. rewrite insert_app_r_alt by done. fold n. by rewrite Nat.sub_diag.
  - simpl. apply list_lookup_middle. done.
  - reflexivity.
Qed.

(** X9: when there is no game or every game is full, [Server.add_client]
    creates a game whose id is the length of the list, appends it, and
    places the player in it as its only player; the games that were there
    are untouched and nothing is sent. *)
Theorem server_add_client_new_game (rng : nat → nat) (fuel : nat) (client : Client)
    (username : string) (w : World server.Server) :
  Forall (λ g, is_full g = true) (server.games (st w)) →
  server.add_client rng (S (S fuel)) client username w =
  Ok tt (Build_World
           {| server.games :=
                server.games (st w)
                ++ [lone_game (length (server.games (st w))) client username];
              server.clients :=
                <[client := length (server.games (st w))]> (server.clients (st w)) |}
           (rpos w) (outbox w)).
Proof. apply add_client_new_game_eq. Qed.

(** ** What the track methods do to a game *)

Lemma pool_step_refl (w : World Game) : pool_step w w.
Proof. exists (used_tracks (st w)), (rpos w). by destruct w as [[] ? ?]. Qed.

Lemma pool_step_trans (w1 w2 w3 : World Game) :
  pool_step w1 w2 → pool_step w2 w3 → pool_step w1 w3.
Proof.
  intros (u1 & r1 & -> & H1) (u2 & r2 & -> & H2). exists u2, r2. split; [done|].
  intros t Ht. apply H1. by apply H2.
Qed.

Lemma pool_step_reset (w : World Game) : pool_step w (reset_used w).
Proof. exists [], (rpos w). split; [done|]. intros t Ht. by apply elem_of_nil in Ht. Qed.

Lemma enough_tracks_pool (g : Game) :
  NoDup (all_tracks g) → enough_tracks g = true → enough_pool g.
Proof.
  intros Hnd He. apply bool_decide_eq_true in He.
  unfold enough_pool. by rewrite size_list_to_set.
Qed.

Lemma available_tracks_wp (fuel : nat) (w : World Game) :
  enough_pool (st w) →
  wp (available_tracks fuel)
     (λ A w', pool_step w w' ∧ A = unused (st w') ∧ NUMBER_OF_ALTERNATIVES ≤ size A)
     (λ _ _, False) w.
Proof.
  revert w. induction fuel as [|fuel IH]; intros w Hpool; [done|].
  unfold wp. rewrite available_tracks_S, all_tracks_nonempty
    by (unfold enough_pool, NUMBER_OF_ALTERNATIVES in Hpool; lia).
  destruct (_ || _) eqn:Hcond.
  - eapply wp_mono; [apply (IH (reset_used w) Hpool)| |done].
    intros A w' (Hstep & HA & Hsize). split; [|done].
    eapply pool_step_trans; [apply pool_step_reset|done].
  - apply orb_false_elim in Hcond as [_ Hlt]. apply Nat.ltb_ge in Hlt.
    split; [apply pool_step_refl|done].
Qed.

Lemma random_choice_wp {St A} (rng : nat → nat) (l : list A) (w : World St) :
  l ≠ [] →
  wp (random_choice rng l)
     (λ a w', a ∈ l ∧ w' = Build_World (st w) (S (rpos w)) (outbox w))
     (λ _ _, False) w.
Proof.
  intros Hl. unfold wp, random_choice, mbind, M_bind, bind, randbelow.
  assert (Hlt : rng (rpos w) `mod` length l < length l).
  { apply Nat.mod_upper_bound. by destruct l. }
  apply lookup_lt_is_Some in Hlt as [a Ha]. rewrite Ha. simpl.
  split; [by eapply list_elem_of_lookup_2|done].
Qed.

Lemma select_track_wp (rng : nat → nat) (fuel : nat) (w : World Game) :
  enough_pool (st w) →
  wp (select_track rng fuel)
     (λ t w', pool_step w w' ∧ t ∈ all_tracks (st w))
     (λ _ _, False) w.
Proof.
  intros Hpool. unfold select_track. apply wp_bind.
  eapply wp_mono; [by apply available_tracks_wp| |done].
  intros A w1 (Hstep & -> & Hsize). cbn beta.
  eapply wp_mono; [apply random_choice_wp| |done].
  - intros Hnil. change (size (unused (st w1))) with (length (elements (unused (st w1)))) in Hsize.
    rewrite Hnil in Hsize. unfold NUMBER_OF_ALTERNATIVES in Hsize. simpl in Hsize. lia.
  - intros t w2 (Ht & ->). split.
    + eapply pool_step_trans; [exact Hstep|].
      exists (used_tracks (st w1)), (S (rpos w1)). by destruct w1 as [[] ? ?].
    + apply elem_of_elements in Ht. unfold unused in Ht.
      apply elem_of_difference in Ht as [Hin _]. rewrite elem_of_list_to_set in Hin.
      destruct Hstep as (u & r & -> & _). exact Hin.
Qed.

Lemma generate_choices_loop_wp (rng : nat → nat) (g : Game) (A : gset Track)
    (o : list (Client * Message)) (fuel : nat) (tracks : list Track) (r : nat) :
  (∀ f r o, available_tracks (S f) (Build_World g r o) = Ok A (Build_World g r o)) →
  NUMBER_OF_ALTERNATIVES ≤ size A →
  wp (generate_choices_loop rng fuel tracks)
     (λ res w', (∃ r', w' = Build_World g r' o) ∧ ∀ t, t ∈ res → t ∈ tracks ∨ t ∈ A)
     (λ _ _, False) (Build_World g r o).
Proof.
  intros Hstable Hsize. revert tracks r.
  induction fuel as [|fuel IH]; intros tracks r; [done|].
  unfold wp. rewrite (generate_choices_loop_S rng g A Hstable).
  destruct (length tracks =? NUMBER_OF_ALTERNATIVES); [split; eauto|].
  destruct (pool_draw A Hsize (rng r)) as (t & -> & Ht).
  eapply wp_mono; [apply IH| |done].
  intros res w' (Hw' & Hres). split; [done|].
  intros t' Ht'. destruct (Hres t' Ht') as [Hin|?]; [|by right].
  unfold extend in Hin. case_bool_decide; [by left|].
  apply elem_of_app in Hin as [?|Hin]; [by left|].
  apply list_elem_of_singleton in Hin as ->. by right.
Qed.

Lemma generate_choices_wp (rng : nat → nat) (fuel : nat) (track : Track) (w : World Game) :
  enough_pool (st w) →
  wp (generate_choices rng fuel track)
     (λ chs w', pool_step w w' ∧ choices_ok track chs ∧
                ∀ t, t ∈ chs → t = track ∨ t ∈ all_tracks (st w))
     (λ _ _, False) w.
Proof.
  intros Hpool.
  assert (Hsound : ∀ chs w', generate_choices rng fuel track w = Ok chs w' →
                             choices_ok track chs) by apply generate_choices_sound.
  unfold wp. destruct (generate_choices rng fuel track w) as [chs w'|e w'|] eqn:Hrun;
    [split; [|split; [by eapply Hsound|]]| |done]; clear Hsound;
    revert Hrun; unfold generate_choices;
    pose proof (available_tracks_wp fuel w Hpool) as Hav; unfold wp in Hav;
    destruct (available_tracks fuel w) as [A w1| |] eqn:HavE; try done;
    try (rewrite (bind_Diverge _ _ _ HavE); done);
    rewrite (bind_Ok _ _ _ _ _ HavE);
    destruct Hav as (Hstep & HA & Hsize);
    apply available_tracks_Ok in HavE as (_ & _ & _ & _ & Hstable);
    (assert (E : (NUMBER_OF_ALTERNATIVES <=? size A) = true) by by apply Nat.leb_le);
    rewrite E; simpl; erewrite bind_Ok by reflexivity;
    destruct w1 as [g1 r1 o1]; simpl in Hstable;
    pose proof (generate_choices_loop_wp rng g1 A o1 fuel [track] r1 Hstable Hsize) as Hloop;
    unfold wp in Hloop;
    destruct (generate_choices_loop rng fuel [track] (Build_World g1 r1 o1))
      as [tracks w2| |] eqn:HloopE; try done;
    try (rewrite (bind_Diverge _ _ _ HloopE); done);
    rewrite (bind_Ok _ _ _ _ _ HloopE);
    destruct Hloop as ((r2 & ->) & Hmem);
    destruct (shuffle_from_Ok rng (length tracks - 1) tracks (Build_World g1 r2 o1))
      as (res & r' & Hsh & Hperm);
    unfold random_shuffle; rewrite Hsh; intros [= <- <-].
  - eapply pool_step_trans; [exact Hstep|].
    exists (used_tracks g1), r'. simpl. by destruct g1.
  - intros t Ht. rewrite Hperm in Ht. destruct (Hmem t Ht) as [Hin|Hin].
    + left. by apply list_elem_of_singleton in Hin.
    + right. subst A. unfold unused in Hin.
      apply elem_of_difference in Hin as [Hin _]. rewrite elem_of_list_to_set in Hin.
      destruct Hstep as (u & r & [= -> _ _] & _). exact Hin.
Qed.

Lemma find_correct_Some (track : Track) (chs : list Track) (old : option nat) :
  track ∈ chs → ∃ k, find_correct track chs old = Some k ∧ chs !! k = Some track.
Proof.
  unfold find_correct. induction chs as [|x l IH] using rev_ind; intros Hin.
  - by apply elem_of_nil in Hin.
  - rewrite imap_app, foldl_app. simpl. rewrite Nat.add_0_r.
    case_bool_decide as Hx.
    + exists (length l). split; [done|]. subst. by apply list_lookup_middle.
    + apply elem_of_app in Hin as [Hin|Hin];
        [|by apply list_elem_of_singleton in Hin].
      destruct (IH Hin) as (k & Hk & Hlk). exists k. split; [done|].
      by apply lookup_app_l_Some.
Qed.

(** ** Starting a round *)

Lemma start_round_wp (rng : nat → nat) (fuel : nat) (w : World Game) :
  NoDup (all_tracks (st w)) →
  wp (start_round rng fuel)
     (λ _ w', is_running (st w) = false ∧
              if can_start (st w) then ∃ track, started w w' track
              else w' = after_intermission w)
     (λ e w', e = AssertionError ∧ w' = w ∧ is_running (st w) = true) w.
Proof.
  intros Hnd. unfold start_round. apply wp_bind, wp_get.
  destruct (is_running (st w)) eqn:Hrun; simpl; [by apply wp_bind, wp_raise|].
  apply wp_bind, wp_ret.
  destruct (can_start (st w)) eqn:Hcan; simpl;
    [|by unfold wp; rewrite intermission_eq].
  assert (Hpool : enough_pool (st w)).
  { apply enough_tracks_pool; [done|]. unfold can_start in Hcan.
    by apply andb_true_iff in Hcan as [[_ ?]%andb_true_iff _]. }
  unfold cancel_intermission, stop_callbacks, join_players.
  apply wp_bind, wp_modify, wp_bind, wp_modify, wp_bind, wp_bind, wp_modify, wp_modify.
  apply wp_bind. eapply wp_mono; [by apply available_tracks_wp| |done].
  intros A w2 ((u2 & r2 & -> & Hu2) & _ & _). cbn beta. cbn [st rpos outbox].
  apply wp_bind, wp_modify, wp_bind.
  eapply wp_mono; [by apply select_track_wp| |done].
  intros track w4 ((u4 & r4 & -> & Hu4) & Htrack). cbn beta. cbn [st rpos outbox].
  apply wp_bind, wp_modify, wp_bind.
  eapply wp_mono; [by apply generate_choices_wp| |done].
  intros chs w6 ((u6 & r6 & -> & Hu6) & Hok & Hmem). cbn beta. cbn [st rpos outbox].
  apply wp_bind, wp_modify, wp_bind, wp_modify, wp_bind, wp_get.
  cbn [st rpos outbox].
  destruct Hok as (Hlen & Hndc & Hin & Hart).
  destruct (find_correct_Some track chs (correct_answer (st w)) Hin) as (k & Hk & Hlk).
  simpl. rewrite Hk. apply wp_bind, wp_ret, wp_bind.
  unfold wp at 1. rewrite notify_clients_eq. cbn [st rpos outbox].
  unfold call_later. apply wp_modify. cbn [st rpos outbox].
  split; [done|]. exists track. unfold started. simpl.
  repeat split; try done.
  - intros t Ht. apply Hu6 in Ht. simpl in Ht.
    apply elem_of_app in Ht as [Ht|Ht]; [|left; by apply list_elem_of_singleton in Ht].
    right. apply Hu4 in Ht. simpl in Ht. by apply Hu2 in Ht.
  - eauto.
  - intros t Ht. by destruct (Hmem t Ht) as [->|?].
Qed.

(** ** Ending a round, in general *)

Lemma time_to_points_Exc (t : Q) (e : exn) : time_to_points t = Exc e → e = IndexError.
Proof.
  unfold time_to_points, py_getitem. cbv zeta.
  repeat match goal with
         | |- context [if ?b then _ else _] => destruct b
         | |- context [match ?o with Some _ => _ | None => _ end] => destruct o
         end; congruence.
Qed.

Lemma end_round_loop_cases (correct : list Answer) (winner : option string) (g : Game)
    (r : nat) (o : list (Client * Message)) :
  (∃ winner' sc, end_round_loop correct winner (Build_World g r o)
                 = Ok winner' (Build_World (set_score (score g ++ sc) g) r o)) ∨
  (∃ sc, end_round_loop correct winner (Build_World g r o)
         = Raise IndexError (Build_World (set_score (score g ++ sc) g) r o)).
Proof.
  revert winner g. induction correct as [|a l IH]; intros winner g; simpl.
  - left. exists winner, []. rewrite app_nil_r. by destruct g.
  - destruct (time_to_points (a_time a)) as [p|e] eqn:Hp.
    + erewrite bind_Ok by reflexivity. erewrite bind_Ok by reflexivity.
      cbn [st rpos outbox].
      destruct (IH (if falsy winner then Some (a_username a) else winner)
                   (set_score (score g ++ [(a_username a, p)]) g))
        as [(winner' & sc & ->)|(sc & ->)]; [left; exists winner'|right];
        exists ((a_username a, p) :: sc); simpl; by rewrite <- app_assoc.
    + apply time_to_points_Exc in Hp as ->. right. exists [].
      rewrite app_nil_r. by destruct g.
Qed.

Lemma end_round_cases (w : World Game) :
  (answers (st w) ≠ [] → correct_answer (st w) ≠ None) →
  (∃ sc winner, end_round w = Ok tt (round_ended w sc winner)) ∨
  (∃ sc, end_round w = Raise IndexError (round_closed w sc)).
Proof.
  intros Hca. unfold end_round, stop_callbacks.
  erewrite bind_Ok by reflexivity. erewrite bind_Ok by reflexivity.
  erewrite bind_Ok by reflexivity. erewrite bind_Ok by reflexivity.
  cbn [st rpos outbox]. simpl.
  assert (Hf : ∃ correct, ∀ w0 : World Game,
    correct_answer (st w0) = correct_answer (st w) →
    filter_correct (sorted_by_time (answers (st w))) w0 = Ok correct w0).
  { unfold filter_correct.
    destruct (sorted_by_time (answers (st w))) as [|a l] eqn:Hs; [by exists []|].
    destruct (correct_answer (st w)) as [k|] eqn:Hk.
    - eexists. intros w0 E. erewrite bind_Ok by reflexivity. by rewrite E.
    - exfalso. apply Hca; [|done]. intros Hnil. by rewrite Hnil in Hs. }
  destruct Hf as [correct Hf]. erewrite bind_Ok by (by apply Hf).
  match goal with |- context [(_ ≫= _) (Build_World ?g ?r ?o)] =>
    destruct (end_round_loop_cases correct None g r o) as [(winner & sc & Hl)|(sc & Hl)]
  end.
  - left. exists sc, winner. erewrite bind_Ok by exact Hl.
    erewrite bind_Ok by reflexivity.
    erewrite bind_Ok by apply notify_clients_eq. by rewrite intermission_eq.
  - right. exists sc. by erewrite bind_Raise by exact Hl.
Qed.

Lemma end_round_wp (w : World Game) :
  (answers (st w) ≠ [] → correct_answer (st w) ≠ None) →
  wp end_round
     (λ _ w', ∃ sc winner, w' = round_ended w sc winner)
     (λ e w', e = IndexError ∧ ∃ sc, w' = round_closed w sc) w.
Proof.
  intros Hca. unfold wp.
  destruct (end_round_cases w Hca) as [(sc & winner & ->)|(sc & ->)]; eauto.
Qed.

(** ** The invariant of a game *)

Lemma active_cancelled (l : list DelayedCall) :
  filter (λ dc, dc_active dc = true) (cancelled l) = [].
Proof.
  induction l as [|c l IH]; [done|]. unfold cancelled in *. simpl.
  by rewrite filter_cons_False.
Qed.

Lemma timers_ok_none (g : Game) : active g = [] → timers_ok g.
Proof.
  intros E. unfold timers_ok. rewrite E. split; [simpl; lia|].
  intros dc Hdc. by apply elem_of_nil in Hdc.
Qed.

Lemma timers_ok_one (g : Game) (delay : Z) (l : list DelayedCall) :
  callbacks g = cancelled l
    ++ [{| dc_delay := delay; dc_func := expected_call g; dc_active := true |}] →
  timers_ok g.
Proof.
  intros E. unfold timers_ok, active. rewrite E, filter_app, active_cancelled.
  simpl. rewrite filter_cons_True by done. simpl. split; [done|].
  intros dc Hdc. by apply list_elem_of_singleton in Hdc as ->.
Qed.

Lemma timers_ok_fired (g : Game) (i : nat) (dc : DelayedCall) :
  callbacks g !! i = Some dc →
  timers_ok g →
  timers_ok (set_callbacks
    (<[i := {| dc_delay := dc_delay dc; dc_func := dc_func dc; dc_active := false |}]>
       (callbacks g)) g).
Proof.
  intros Hi [Hlen Hfun]. unfold timers_ok, active in *. simpl.
  rewrite insert_take_drop by by eapply lookup_lt_Some.
  rewrite <- (take_drop_middle _ _ _ Hi) in Hlen, Hfun.
  rewrite !filter_app, !filter_cons in *. simpl in *.
  rewrite !length_app in *.
  destruct (decide (dc_active dc = true)); simpl in *.
  - split; [lia|]. intros dc' Hdc'. apply Hfun.
    rewrite !elem_of_app, elem_of_cons in *. tauto.
  - split; [lia|]. intros dc' Hdc'. by apply Hfun.
Qed.

Lemma GInv_after_intermission (w : World Game) :
  tracks_ok (st w) → is_running (st w) = false → answers (st w) = [] →
  GInv (st (after_intermission w)).
Proof.
  intros Ht Hrun Hans. split; [done|]. split.
  - eapply (timers_ok_one _ INTERMISSION_TIMEOUT (callbacks (st w))).
    unfold expected_call. simpl. by rewrite Hrun.
  - unfold round_ok. simpl. by rewrite Hrun.
Qed.

Lemma GInv_started (w w' : World Game) (track : Track) :
  tracks_ok (st w) → started w w' track → GInv (st w').
Proof.
  intros [Hnd Hused]
    (Hrun & _ & _ & _ & _ & _ & _ & _ & Hall & Htrack & Hused' & Hcb & Hk & Hok & Hch & _).
  split; [|split].
  - split; rewrite Hall; [done|]. intros t Ht.
    destruct (Hused' t Ht) as [->|?]; auto.
  - eapply (timers_ok_one _ ROUND_TIME (callbacks (st w))).
    unfold expected_call. by rewrite Hrun.
  - unfold round_ok. rewrite Hrun. destruct Hk as (k & Hk & Hlk).
    exists k, track. rewrite Hall. auto.
Qed.

Lemma GInv_round_closed (w : World Game) (sc : list (string * Z)) :
  tracks_ok (st w) → GInv (st (round_closed w sc)).
Proof.
  intros Ht. split; [done|]. split; [|done].
  apply timers_ok_none. unfold active. simpl. apply active_cancelled.
Qed.

Lemma GInv_round_ended (w : World Game) (sc : list (string * Z)) (winner : option string) :
  tracks_ok (st w) → GInv (st (round_ended w sc winner)).
Proof. intros Ht. by apply GInv_after_intermission. Qed.

Lemma GInv_answers (g : Game) :
  GInv g → answers g ≠ [] → correct_answer g ≠ None.
Proof.
  intros (_ & _ & Hr) Hans. unfold round_ok in Hr.
  destruct (is_running g); [|done]. destruct Hr as (k & ? & -> & _). done.
Qed.

Lemma gpreserves_end_round : gpreserves end_round.
Proof.
  intros w HI. eapply wp_mono; [apply end_round_wp; by apply GInv_answers| |];
    cbn beta.
  - intros _ w' (sc & winner & ->). apply GInv_round_ended, HI.
  - intros e w' (_ & sc & ->). apply GInv_round_closed, HI.
Qed.

Lemma gpreserves_start_round rng fuel : gpreserves (start_round rng fuel).
Proof.
  intros w HI. destruct HI as (Ht & Htm & Hr).
  eapply wp_mono; [apply start_round_wp, Ht| |]; cbn beta.
  - intros _ w' [Hrun Hpost]. destruct (can_start (st w)).
    + destruct Hpost as [track Hst]. by eapply GInv_started.
    + subst w'. apply GInv_after_intermission; [done..|].
      unfold round_ok in Hr. by rewrite Hrun in Hr.
  - by intros e w' (_ & -> & _).
Qed.

Lemma GInv_neutral (g g' : Game) :
  all_tracks g' = all_tracks g → used_tracks g' = used_tracks g →
  callbacks g' = callbacks g → is_running g' = is_running g →
  choices g' = choices g → correct_answer g' = correct_answer g →
  (is_running g = false → answers g' = answers g) →
  GInv g → GInv g'.
Proof.
  intros Ha Hu Hc Hr Hch Hca Hans ([Hnd Hused] & [Hlen Hfun] & Hro).
  unfold GInv, tracks_ok, timers_ok, active, expected_call, round_ok in *.
  rewrite Ha, Hu, Hc, Hr, Hch, Hca. repeat split; try done.
  destruct (is_running g); [done|]. by rewrite Hans.
Qed.

Lemma gpreserves_add_client rng fuel client username :
  gpreserves (add_client rng fuel client username).
Proof.
  intros w HI. unfold add_client. apply wp_bind, wp_get.
  destruct (is_full (st w)); [by apply wp_ret|].
  apply wp_bind, wp_modify, wp_bind.
  destruct (is_running (st w)) eqn:Hrun.
  - apply wp_modify, wp_ret. by eapply GInv_neutral; [..|exact HI].
  - apply wp_bind, wp_modify, wp_bind, wp_get.
    match goal with |- wp _ _ _ ?w1 => assert (HI1 : GInv (st w1)) end.
    { by eapply GInv_neutral; [..|exact HI]. }
    match goal with |- wp (if ?b then _ else _) _ _ _ => destruct b end.
    + eapply wp_mono; [by apply gpreserves_start_round| |done].
      intros ? w' HI'. by apply wp_ret.
    + by apply wp_ret, wp_ret.
Qed.

Lemma gpreserves_remove_client client : gpreserves (remove_client client).
Proof.
  intros w HI. unfold remove_client. apply wp_bind, wp_get, wp_bind, wp_lift_res.
  destruct (list_remove_first client (clients (st w))) as [clients'|]; [|exact HI].
  apply wp_bind, wp_modify.
  destruct (users (st w) !! client);
    [|by eapply GInv_neutral; [..|exact HI]].
  apply wp_bind, wp_modify, wp_bind, wp_modify, wp_bind, wp_get.
  match goal with |- wp _ _ _ ?w1 => assert (HI1 : GInv (st w1)) end.
  { by eapply GInv_neutral; [..|exact HI]. }
  match goal with |- wp (if ?b then _ else _) _ _ _ => destruct b end.
  - by apply gpreserves_end_round.
  - by apply wp_ret.
Qed.

Lemma gpreserves_received_answer client answer time :
  gpreserves (received_answer client answer time).
Proof.
  intros w HI. unfold received_answer. apply wp_bind, wp_get.
  destruct (is_running (st w)) eqn:Hrun; simpl; [|by apply wp_ret].
  destruct (users (st w) !! client) as [username|]; [|exact HI].
  case_bool_decide; [by apply wp_ret|].
  apply wp_bind, wp_modify, wp_bind, wp_get.
  match goal with |- wp _ _ _ ?w1 => assert (HI1 : GInv (st w1)) end.
  { eapply GInv_neutral; [..|exact HI]; try done. intros E. congruence. }
  match goal with |- wp (if ?b then _ else _) _ _ _ => destruct b end.
  - by apply gpreserves_end_round.
  - by apply wp_ret.
Qed.

Lemma gpreserves_add_tracks client tracks : gpreserves (add_tracks client tracks).
Proof.
  intros w ([Hnd Hused] & Htm & Hr). unfold wp. rewrite add_tracks_eq.
  split; [|split].
  - split; simpl; [by apply merge_tracks_NoDup|].
    intros t Ht. apply merge_tracks_elem_of. left. by apply Hused.
  - done.
  - unfold round_ok in *. simpl. destruct (is_running (st w)); [|done].
    destruct Hr as (k & track & ? & ? & ? & Hch). exists k, track.
    split; [done|]. split; [done|]. split; [done|].
    intros t Ht. apply merge_tracks_elem_of. left. by apply Hch.
Qed.

Lemma gpreserves_fire rng fuel i : gpreserves (fire rng fuel i).
Proof.
  intros w HI. unfold fire. apply wp_bind, wp_get.
  destruct (callbacks (st w) !! i) as [dc|] eqn:Hi; [|by apply wp_ret].
  destruct (dc_active dc); [|by apply wp_ret].
  apply wp_bind, wp_modify.
  match goal with |- wp _ _ _ ?w1 => assert (HI1 : GInv (st w1)) end.
  { destruct HI as (Ht & Htm & Hr). split; [done|]. split; [|done].
    by apply timers_ok_fired. }
  destruct (dc_func dc).
  - by apply gpreserves_start_round.
  - by apply gpreserves_end_round.
Qed.

Lemma gpreserves_handle rng fuel ev : gpreserves (handle rng fuel ev).
Proof.
  destruct ev; simpl.
  - intros w HI. apply wp_bind.
    eapply wp_mono; [by apply gpreserves_add_client| |done].
    intros ? w' HI'. by apply wp_ret.
  - apply gpreserves_remove_client.
  - apply gpreserves_add_tracks.
  - apply gpreserves_received_answer.
  - apply gpreserves_fire.
Qed.

Lemma GInv_init identification n : GInv (st (init identification n)).
Proof.
  unfold init. rewrite Game_new_eq. simpl.
  split; [|split]; [split; [constructor|]| |done].
  - intros t Ht. by apply elem_of_nil in Ht.
  - by eapply (timers_ok_one _ INTERMISSION_TIMEOUT []).
Qed.

Lemma reachable_GInv rng w : reachable rng w → GInv (st w).
Proof.
  induction 1 as [identification n|w ev fuel w' _ IH Hstep|w ev fuel e w' _ IH Hstep].
  - apply GInv_init.
  - pose proof (gpreserves_handle rng fuel ev w IH) as Hwp.
    unfold wp in Hwp. by rewrite Hstep in Hwp.
  - pose proof (gpreserves_handle rng fuel ev w IH) as Hwp.
    unfold wp in Hwp. by rewrite Hstep in Hwp.
Qed.

(** ** What holds between any two events of a game *)

(** X10: in every world a game reaches, [all_tracks] holds no track twice and
    every track marked used is a known track. *)
Theorem reachable_tracks (rng : nat → nat) (w : World Game) :
  reachable rng w →
  NoDup (all_tracks (st w)) ∧
  ∀ t, t ∈ used_tracks (st w) → t ∈ all_tracks (st w).
Proof. intros Hw. by apply reachable_GInv in Hw as (Ht & _). Qed.

(** X11: in every world a game reaches, at most one delayed call is still
    active, and it is the one of the phase: [round_timedout] while a round is
    running, [start_round] otherwise. *)
Theorem reachable_timers (rng : nat → nat) (w : World Game) :
  reachable rng w →
  length (active (st w)) ≤ 1 ∧
  ∀ dc, dc ∈ active (st w) →
    dc_func dc = if is_running (st w) then CbRoundTimedout else CbStartRound.
Proof. intros Hw. by apply reachable_GInv in Hw as (_ & Htm & _). Qed.

(** X12: in every world a game reaches: while a round is running, [choices]
    holds exactly [NUMBER_OF_ALTERNATIVES] distinct known tracks, no two by
    the same artist, and [correct_answer] is the index of a track in it;
    outside a round, [answers] is empty. *)
Theorem reachable_round (rng : nat → nat) (w : World Game) :
  reachable rng w →
  (is_running (st w) = true →
     ∃ k track,
       correct_answer (st w) = Some k ∧ choices (st w) !! k = Some track ∧
       choices_ok track (choices (st w)) ∧
       ∀ t, t ∈ choices (st w) → t ∈ all_tracks (st w)) ∧
  (is_running (st w) = false → answers (st w) = []).
Proof.
  intros Hw. apply reachable_GInv in Hw as (_ & _ & Hr). unfold round_ok in Hr.
  split; intros Hrun; by rewrite Hrun in Hr.
Qed.



(** ** The invariant of the server *)

Lemma frames_id_add_client rng fuel client username :
  frames id (add_client rng fuel client username).
Proof.
  unfold add_client. repeat first [frames_id_step | apply frames_id_start_round].
Qed.

Lemma frames_id_remove_client client : frames id (remove_client client).
Proof. apply (frames_id_handle (λ n, n) 0 (EvRemoveClient client)). Qed.

Lemma frames_id_received_answer client answer time :
  frames id (received_answer client answer time).
Proof. apply (frames_id_handle (λ n, n) 0 (EvAnswer client answer time)). Qed.

Lemma frames_id_fire rng fuel j : frames id (fire rng fuel j).
Proof. apply (frames_id_handle rng fuel (game.EvTimer j)). Qed.

Lemma game_ok_step {A} (m : M Game A) (i : nat) (w : World Game) :
  game_preserves m → game_ok i (st w) →
  wp m (λ _ w', game_ok i (st w')) (λ _ w', game_ok i (st w')) w.
Proof.
  intros (Hp & Hg & Hf) (Hid & HI & HG). unfold wp.
  pose proof (Hp w HI) as H1. pose proof (Hg w HG) as H2. pose proof (Hf w) as H3.
  unfold wp in H1, H2, H3.
  destruct (m w); [| |done]; (split; [congruence|done]).
Qed.

Lemma SInv_insert (s : server.Server) (i : nat) (g' : Game) :
  SInv s → game_ok i g' →
  SInv (server.set_games (<[i := g']> (server.games s)) s).
Proof.
  intros [Hmap Hgames] Hg'. split; simpl.
  - intros c k Hc. rewrite length_insert. by eapply Hmap.
  - intros k g Hk. apply list_lookup_insert_Some in Hk as [(-> & -> & _)|[_ Hk]];
      [done|by apply Hgames].
Qed.

Lemma at_game_SInv {A} (i : nat) (m : M Game A) (w : World server.Server) :
  game_preserves m → SInv (st w) →
  wp (server.at_game i m)
     (λ _ w', SInv (st w') ∧ i < length (server.games (st w'))
              ∧ server.clients (st w') = server.clients (st w))
     (λ _ w', SInv (st w')) w.
Proof.
  intros Hm HS. unfold wp, server.at_game.
  destruct (server.games (st w) !! i) as [g|] eqn:Hi; [|done].
  pose proof (game_ok_step m i (Build_World g (rpos w) (outbox w)) Hm) as Hstep.
  unfold wp in Hstep. destruct HS as [Hmap Hgames].
  specialize (Hstep (Hgames i g Hi)).
  destruct (m (Build_World g (rpos w) (outbox w))) as [a w'|e w'|]; [| |done]; cbn [st].
  - split; [by apply SInv_insert|]. split; [|done].
    simpl. rewrite length_insert. by eapply lookup_lt_Some.
  - by apply SInv_insert.
Qed.

Lemma game_preserves_add_client rng fuel client username :
  game_preserves (add_client rng fuel client username).
Proof.
  split; [apply preserves_add_client|].
  split; [apply gpreserves_add_client | apply frames_id_add_client].
Qed.

Lemma game_preserves_remove_client client : game_preserves (remove_client client).
Proof.
  split; [apply preserves_remove_client|].
  split; [apply gpreserves_remove_client | apply frames_id_remove_client].
Qed.

Lemma game_preserves_received_answer client answer time :
  game_preserves (received_answer client answer time).
Proof.
  split; [apply preserves_received_answer|].
  split; [apply gpreserves_received_answer | apply frames_id_received_answer].
Qed.

Lemma game_preserves_add_tracks client tracks :
  game_preserves (add_tracks client tracks).
Proof.
  split; [apply preserves_keeps, keeps_add_tracks|].
  split; [apply gpreserves_add_tracks|].
  apply frames_add_tracks. by intros ??.
Qed.

Lemma game_preserves_fire rng fuel j : game_preserves (fire rng fuel j).
Proof.
  split; [apply preserves_fire|].
  split; [apply gpreserves_fire | apply frames_id_fire].
Qed.

Lemma game_ok_fresh (n : nat) : game_ok n (fresh_game n).
Proof.
  split; [done|]. split.
  - split; [simpl; unfold MAX_PLAYERS; lia|constructor].
  - pose proof (GInv_init n 0) as H. unfold init in H.
    by rewrite Game_new_eq in H.
Qed.

Lemma join_first_SInv rng fuel (l : list nat) client username (w : World server.Server) :
  SInv (st w) →
  wp (server.join_first rng fuel l client username)
     (λ _ w', SInv (st w')) (λ _ w', SInv (st w')) w.
Proof.
  revert w. induction l as [|i l IH]; intros w HS; [done|].
  cbn [server.join_first]. unfold server.join_game.
  apply wp_bind, wp_bind.
  eapply wp_mono; [apply at_game_SInv; [apply game_preserves_add_client|done]| |done].
  intros ok w1 (HS1 & Hlt & _). cbn beta.
  destruct ok; simpl.
  - apply wp_bind, wp_modify, wp_ret. cbn [st].
    rewrite bool_decide_eq_true_2 by lia. apply wp_ret.
    destruct HS1 as [Hmap Hgames]. split; [|done]. simpl.
    intros c k Hc. apply lookup_insert_Some in Hc as [[_ <-]|[_ Hc]]; [done|].
    by eapply Hmap.
  - apply wp_ret. rewrite bool_decide_eq_false_2 by (intros H; by apply H).
    by apply IH.
Qed.

Lemma server_add_client_SInv rng fuel client username (w : World server.Server) :
  SInv (st w) →
  wp (server.add_client rng fuel client username)
     (λ _ w', SInv (st w')) (λ _ w', SInv (st w')) w.
Proof.
  revert w. induction fuel as [|fuel IH]; intros w HS; [done|].
  unfold wp. rewrite server_add_client_S.
  destruct (open_games (st w)) as [|i l] eqn:Hopen.
  - erewrite bind_Ok by apply Game_new_eq. erewrite bind_Ok by reflexivity.
    cbn [st rpos outbox]. apply IH. cbn [st].
    destruct HS as [Hmap Hgames]. split; simpl.
    + intros c k Hc. rewrite length_app. simpl. apply Hmap in Hc. lia.
    + intros k g Hk. apply lookup_app_Some in Hk as [Hk|[Hge Hk]]; [by apply Hgames|].
      apply list_lookup_singleton_Some in Hk as [Hk <-].
      replace k with (length (server.games (st w))) by lia.
      apply game_ok_fresh.
  - rewrite <- Hopen. by apply join_first_SInv.
Qed.

Lemma receiver_handle_SInv rng fuel ev (w : World server.Server) :
  SInv (st w) →
  wp (receiver.handle rng fuel ev) (λ _ w', SInv (st w')) (λ _ w', SInv (st w')) w.
Proof.
  intros HS. destruct ev as [self [username|answer time|tracks|action]|self|i j]; simpl.
  - apply wp_bind, wp_bind.
    eapply wp_mono; [by apply server_add_client_SInv| |done].
    intros ? w' HS'. by apply wp_ret, wp_ret.
  - apply wp_bind, wp_bind. unfold server.received_answer, server.game_of.
    apply wp_bind, wp_bind, wp_get.
    destruct (server.clients (st w) !! self); [|done]. apply wp_ret.
    eapply wp_mono;
      [apply at_game_SInv; [apply game_preserves_received_answer|done]| |done].
    intros ? w' (HS' & _). by apply wp_ret, wp_ret.
  - apply wp_bind, wp_bind. unfold server.add_tracks, server.game_of.
    apply wp_bind, wp_bind, wp_get.
    destruct (server.clients (st w) !! self); [|done]. apply wp_ret.
    eapply wp_mono;
      [apply at_game_SInv; [apply game_preserves_add_tracks|done]| |done].
    intros ? w' (HS' & _). by apply wp_ret, wp_ret.
  - by apply wp_bind, wp_ret, wp_ret.
  - unfold receiver.connectionLost, server.client_disconnected, server.game_of.
    apply wp_bind, wp_bind, wp_get.
    destruct (server.clients (st w) !! self); [|done]. apply wp_ret, wp_bind.
    eapply wp_mono;
      [apply at_game_SInv; [apply game_preserves_remove_client|done]| |done].
    intros ? w' ([Hmap Hgames] & _). apply wp_modify. split; [|done]. simpl.
    intros c k Hc. apply lookup_delete_Some in Hc as [_ Hc]. by eapply Hmap.
  - apply wp_bind, wp_get. destruct (server.games (st w) !! i); [|by apply wp_ret].
    eapply wp_mono; [apply at_game_SInv; [apply game_preserves_fire|done]| |done].
    by intros ? w' (HS' & _).
Qed.

Lemma SInv_new : SInv server.new.
Proof.
  split; simpl; intros ? ? H; [by rewrite lookup_empty in H|by rewrite lookup_nil in H].
Qed.

Lemma reachable_SInv rng (w : World server.Server) :
  receiver.reachable rng w → SInv (st w).
Proof.
  induction 1 as [n|w ev fuel w' _ IH Hstep|w ev fuel e w' _ IH Hstep].
  - apply SInv_new.
  - pose proof (receiver_handle_SInv rng fuel ev w IH) as Hwp.
    unfold wp in Hwp. by rewrite Hstep in Hwp.
  - pose proof (receiver_handle_SInv rng fuel ev w IH) as Hwp.
    unfold wp in Hwp. by rewrite Hstep in Hwp.
Qed.

(** X15: on every server reached from [Server()], every client of the routing
    table points at a game of the list, the id of every game is its index
    in the list, and no game holds more than [MAX_PLAYERS] players. *)
Theorem server_routing (rng : nat → nat) (w : World server.Server) :
  receiver.reachable rng w →
  (∀ c i, server.clients (st w) !! c = Some i →
     ∃ g, server.games (st w) !! i = Some g) ∧
  (∀ i g, server.games (st w) !! i = Some g →
     id g = i ∧ length (clients g) + length (waiting g) ≤ MAX_PLAYERS).
Proof.
  intros Hw. apply reachable_SInv in Hw as [Hmap Hgames]. split.
  - intros c i Hc. apply lookup_lt_is_Some. by eapply Hmap.
  - intros i g Hg. destruct (Hgames i g Hg) as (Hid & [Hn _] & _). done.
Qed.

(** X16: on every server reached from [Server()], the tracks a connected
    client reports are merged into the track list of its game: the call
    returns, that game's [all_tracks] gets the missing tracks appended, and
    nothing else changes, in that game or any other. *)
Theorem server_add_tracks_routed (rng : nat → nat) (client : Client) (i : nat)
    (tracks : list Track) (w : World server.Server) :
  receiver.reachable rng w →
  server.clients (st w) !! client = Some i →
  ∃ g, server.games (st w) !! i = Some g ∧
    server.add_tracks client tracks w =
    Ok tt (Build_World
             (server.set_games
                (<[i := set_all_tracks (merge_tracks (all_tracks g) tracks) g]>
                   (server.games (st w))) (st w))
             (rpos w) (outbox w)).
Proof.
  intros Hw Hc. apply reachable_SInv in Hw as [Hmap _].
  destruct (lookup_lt_is_Some_2 _ _ (Hmap _ _ Hc)) as [g Hg].
  exists g. split; [done|].
  unfold server.add_tracks, server.game_of.
  erewrite bind_Ok; [|erewrite bind_Ok by reflexivity; by rewrite Hc].
  unfold server.at_game. by rewrite Hg, add_tracks_eq.
Qed.

(** X17: a line from a client that is not in the routing table, such as an
    answer or tracks sent before [connect]: [Server.received_answer] and
    [Server.add_tracks] raise [KeyError] and change nothing. *)
Theorem server_unmapped_raises (client : Client) (answer : Z) (time : Q)
    (tracks : list Track) (w : World server.Server) :
  server.clients (st w) !! client = None →
  server.received_answer client answer time w = Raise KeyError w ∧
  server.add_tracks client tracks w = Raise KeyError w.
Proof.
  intros Hc. unfold server.received_answer, server.add_tracks, server.game_of.
  split; (erewrite bind_Raise; [reflexivity|]);
    erewrite bind_Ok by reflexivity; by rewrite Hc.
Qed.

(** ** The last answer of a round *)


(** ** The covers on the screen *)

(** X19: the covers of the choices lie side by side on the screen: for
    indices [0 <= i < j < NUMBER_OF_COVERS] the cover at [i] ends before the
    cover at [j] begins, and every cover lies inside the window. *)
Theorem covers_do_not_overlap (i j : Z) :
  (0 ≤ i)%Z → (i < j)%Z → (j < gui.NUMBER_OF_COVERS)%Z →
  ((gui.index_to_pos i).1 + gui.COVER_WIDTH ≤ (gui.index_to_pos j).1)%Z ∧
  (0 ≤ (gui.index_to_pos i).1)%Z ∧
  ((gui.index_to_pos j).1 + gui.COVER_WIDTH ≤ gui.WIDTH)%Z ∧
  (0 ≤ (gui.index_to_pos i).2)%Z ∧
  ((gui.index_to_pos i).2 + gui.COVER_HEIGHT ≤ gui.HEIGHT)%Z.
Proof.
  intros Hi Hij Hj. unfold gui.index_to_pos, gui.NUMBER_OF_COVERS in *. cbv zeta. simpl.
  change (gui.WIDTH / 4)%Z with 200%Z.
  change ((200 - gui.COVER_WIDTH) / 2)%Z with 25%Z.
  unfold gui.COVER_WIDTH, gui.WIDTH, gui.COVER_HEIGHT, gui.HEIGHT. lia.
Qed.

(** ** Ending a round: who is scored, and in which order *)

Lemma time_le_trans (a b c : Answer) : time_le a b → time_le b c → time_le a c.
Proof. unfold time_le. apply Qle_trans. Qed.

Lemma Sorted_time_le_filter (P : Answer → Prop) `{∀ a, Decision (P a)}
    (l : list Answer) :
  Sorted time_le l → Sorted time_le (filter P l).
Proof.
  intros Hs. apply StronglySorted_Sorted.
  apply Sorted_StronglySorted in Hs; [|intros a b c; apply time_le_trans].
  induction Hs as [|a l Hs IH Hall]; [constructor|].
  rewrite filter_cons. destruct (decide (P a)); [|done].
  constructor; [done|]. apply Forall_forall. intros b Hb.
  apply list_elem_of_filter in Hb as [_ Hb].
  rewrite Forall_forall in Hall. by apply Hall.
Qed.

Lemma end_round_loop_points (correct : list Answer) (pts : list Z)
    (winner : option string) (w : World Game) :
  Forall2 (λ a p, time_to_points (a_time a) = Val p) correct pts →
  Forall (λ a, a_username a ≠ "") correct →
  end_round_loop correct winner w =
  Ok (match head correct with
      | Some a => if falsy winner then Some (a_username a) else winner
      | None => winner
      end)
     (Build_World
        (set_score (score (st w) ++ zip (a_username <$> correct) pts) (st w))
        (rpos w) (outbox w)).
Proof.
  intros Hpts. revert winner w.
  induction Hpts as [|a p l ps Hp _ IH]; intros winner w Hname; simpl.
  - rewrite app_nil_r. by destruct w as [[] ? ?].
  - apply Forall_cons in Hname as [Ha Hname].
    rewrite Hp. erewrite bind_Ok by reflexivity.
    erewrite bind_Ok by reflexivity. rewrite IH by done. simpl.
    rewrite <- app_assoc. simpl.
    assert (E : falsy (if falsy winner then Some (a_username a) else winner) = false).
    { destruct (falsy winner) eqn:Ew; [|done]. simpl. by apply bool_decide_eq_false_2. }
    rewrite E. by destruct l.
Qed.


(** ** Connecting and leaving at once *)

Lemma remove_client_lone (n : nat) (client : Client) (username : string) (r : nat)
    (o : list (Client * Message)) :
  remove_client client (Build_World (lone_game n client username) r o) =
  Ok tt (Build_World (fresh_game n) r o).
Proof.
  unfold remove_client. erewrite bind_Ok by reflexivity.
  cbn [st lone_game clients set_clients list_remove_first].
  rewrite decide_True by done.
  erewrite bind_Ok by reflexivity. erewrite bind_Ok by reflexivity.
  change (users (lone_game n client username)) with (<[client := username]> (∅ : gmap Client string)).
  rewrite lookup_insert_eq.
  erewrite bind_Ok by reflexivity. erewrite bind_Ok by reflexivity.
  erewrite bind_Ok by reflexivity. cbn [st rpos outbox]. simpl.
  rewrite delete_insert_id by done. reflexivity.
Qed.

(** X21: a client that is not yet in the routing table connects while every
    game is full and then disconnects: the game created for it stays in the
    list, empty and as [Game.__init__] left it; the routing table and the
    games that were there are as before, and nothing was sent. *)
Theorem connect_then_disconnect (rng : nat → nat) (fuel : nat) (client : Client)
    (username : string) (w : World server.Server) :
  Forall (λ g, is_full g = true) (server.games (st w)) →
  server.clients (st w) !! client = None →
  (server.add_client rng (S (S fuel)) client username ≫= λ _,
   server.client_disconnected client) w =
  Ok tt (Build_World
           (server.set_games
              (server.games (st w) ++ [fresh_game (length (server.games (st w)))])
              (st w))
           (rpos w) (outbox w)).
Proof.
  intros Hfull Hc.
  erewrite bind_Ok by (by apply add_client_new_game_eq).
  set (n := length (server.games (st w))).
  unfold server.client_disconnected, server.game_of.
  erewrite bind_Ok; [|erewrite bind_Ok by reflexivity; cbn [st server.clients];
                      rewrite lookup_insert_eq; reflexivity].
  erewrite bind_Ok.
  2:{ unfold server.at_game. cbn [st rpos outbox server.games].
      rewrite list_lookup_middle by done.
      rewrite remove_client_lone. reflexivity. }
  unfold modify. cbn [st rpos outbox server.games server.clients server.set_games
                      server.set_clients].
  rewrite insert_app_r_alt by done. fold n. rewrite Nat.sub_diag.
  rewrite delete_insert_id by done. by destruct w as [[] ? ?].
Qed.

(** ** Too few artists *)

Lemma available_tracks_enough (fuel : nat) (w w1 : World Game) (A : gset Track) :
  available_tracks fuel w = Ok A w1 → enough_pool (st w).
Proof.
  intros H.
  pose proof (available_tracks_Ok _ _ _ _ H) as (_ & _ & _ & Hsize & _).
  pose proof (available_tracks_used _ _ _ _ H) as (-> & Hall & _).
  unfold enough_pool. rewrite <- Hall. etrans; [exact Hsize|].
  apply subseteq_size. unfold unused. intros x Hx.
  by apply elem_of_difference in Hx as [Hx _].
Qed.

Lemma NoDup_size_le (l : list string) (X : gset string) :
  NoDup l → (∀ x, x ∈ l → x ∈ X) → length l ≤ size X.
Proof.
  intros Hnd Hsub. rewrite <- (size_list_to_set (C := gset string) l) by done.
  apply subseteq_size. intros x Hx. apply Hsub. by apply elem_of_list_to_set in Hx.
Qed.

(** X22: [generate_choices] needs [NUMBER_OF_ALTERNATIVES] artists: when the
    known tracks, the played one among them, are by fewer artists, it never
    returns, whatever the draws; and where the pool holds enough tracks for
    [available_tracks] to return, it raises nothing either: the loop runs
    forever. *)
Theorem generate_choices_few_artists (rng : nat → nat) (fuel : nat) (track : Track)
    (w : World Game) :
  track ∈ all_tracks (st w) →
  size (list_to_set (artist <$> all_tracks (st w)) : gset string) < NUMBER_OF_ALTERNATIVES →
  (∀ chs w', generate_choices rng fuel track w ≠ Ok chs w') ∧
  (enough_pool (st w) → generate_choices rng fuel track w = Diverge).
Proof.
  intros Htrack Hfew.
  assert (Hnever : enough_pool (st w) →
            ∀ chs w', generate_choices rng fuel track w ≠ Ok chs w').
  { intros Hpool chs w' Hrun.
    pose proof (generate_choices_wp rng fuel track w Hpool) as Hwp.
    unfold wp in Hwp. rewrite Hrun in Hwp.
    destruct Hwp as (_ & (Hlen & _ & _ & Hnd) & Hmem).
    assert (Hle : length (artist <$> chs)
                  ≤ size (list_to_set (artist <$> all_tracks (st w)) : gset string)).
    { apply NoDup_size_le; [done|]. intros a Ha.
      apply list_elem_of_fmap in Ha as (t & -> & Ht).
      apply elem_of_list_to_set, list_elem_of_fmap. exists t. split; [done|].
      by destruct (Hmem t Ht) as [->|?]. }
    rewrite length_fmap, Hlen in Hle. lia. }
  split.
  - intros chs w' Hrun. apply (Hnever) with chs w'; [|done].
    revert Hrun. unfold generate_choices.
    destruct (available_tracks fuel w) as [A w1|e w1|] eqn:Hav.
    + intros _. by eapply available_tracks_enough.
    + by rewrite (bind_Raise _ _ _ _ _ Hav).
    + by rewrite (bind_Diverge _ _ _ Hav).
  - intros Hpool.
    pose proof (generate_choices_wp rng fuel track w Hpool) as Hwp. unfold wp in Hwp.
    destruct (generate_choices rng fuel track w) as [chs w'|e w'|] eqn:Hrun; [|done|done].
    by destruct (Hnever Hpool chs w').
Qed.

(** ** Instances *)

Lemma sample_NoDup_four : NoDup (all_tracks (st sample.four_tracks)).
Proof. apply (bool_decide_unpack _). vm_compute. exact I. Qed.

Lemma round1_reachable : reachable sample.counting sample.round1.
Proof. apply reachable_after, reach_init. Qed.

Lemma alice_answered_reachable : reachable sample.counting sample.alice_answered.
Proof. apply reachable_after, round1_reachable. Qed.

Lemma ready_reachable : reachable sample.counting sample.ready.
Proof. apply reachable_after, reach_init. Qed.

Lemma served_reachable : receiver.reachable sample.counting sample.served.
Proof.
  eapply (receiver.reach_ok sample.counting _ (receiver.EvLine 7 (receiver.Connect "alice")) 21);
    [apply receiver.reach_init|].
  vm_compute. reflexivity.
Qed.

Lemma ranked_alice_answered :
  ranked (st sample.alice_answered) 3 = [("alice", 3%Z, 1 # 2)].
Proof. vm_compute. reflexivity. Qed.

Lemma add_tracks_merges_witness :
  ∃ all',
    add_tracks 7 [sample.t1; sample.t5] sample.four_tracks =
      Ok tt (Build_World (set_all_tracks all' (st sample.four_tracks))
                         (rpos sample.four_tracks) (outbox sample.four_tracks)) ∧
    NoDup all' ∧ all_tracks (st sample.four_tracks) `prefix_of` all' ∧
    ∀ t, t ∈ all' ↔ t ∈ all_tracks (st sample.four_tracks) ∨ t ∈ [sample.t1; sample.t5].
Proof.
  apply (add_tracks_merges 7 [sample.t1; sample.t5] sample.four_tracks).
  apply sample_NoDup_four.
Defined.

Lemma time_to_points_monotone_witness :
  time_to_points (1 # 2) = Val 89%Z ∧ time_to_points (3 # 2) = Val 55%Z ∧ (55 ≤ 89)%Z.
Proof.
  split; [reflexivity|]. split; [reflexivity|].
  apply (time_to_points_monotone (1 # 2) (3 # 2) 89 55);
    [discriminate | discriminate | reflexivity | reflexivity].
Defined.

Lemma reachable_tracks_witness :
  NoDup (all_tracks (st sample.round1)) ∧
  ∀ t, t ∈ used_tracks (st sample.round1) → t ∈ all_tracks (st sample.round1).
Proof. apply (reachable_tracks sample.counting), round1_reachable. Defined.

Lemma reachable_timers_witness :
  length (active (st sample.round1)) ≤ 1 ∧
  ∀ dc, dc ∈ active (st sample.round1) →
    dc_func dc = if is_running (st sample.round1) then CbRoundTimedout else CbStartRound.
Proof. apply (reachable_timers sample.counting), round1_reachable. Defined.

Lemma reachable_round_witness :
  ∃ k track,
    correct_answer (st sample.round1) = Some k ∧
    choices (st sample.round1) !! k = Some track ∧
    choices_ok track (choices (st sample.round1)).
Proof.
  destruct (reachable_round sample.counting sample.round1 round1_reachable) as [H _].
  destruct H as (k & track & Hk & Ht & Hc & _); [vm_compute; reflexivity|].
  exists k, track. split; [exact Hk|]. split; [exact Ht|exact Hc].
Defined.





Lemma covers_do_not_overlap_witness :
  ((gui.index_to_pos 0).1 + gui.COVER_WIDTH ≤ (gui.index_to_pos 1).1)%Z.
Proof. apply (covers_do_not_overlap 0 1); reflexivity || discriminate. Defined.

Lemma server_add_client_first_open_witness :
  server.add_client sample.counting 6 8 "bob" sample.served =
  Ok tt (Build_World
           {| server.games := <[0 := st sample.bob_joined]> (server.games (st sample.served));
              server.clients := <[8 := 0]> (server.clients (st sample.served)) |}
           (rpos sample.bob_joined) (outbox sample.bob_joined)).
Proof.
  apply (server_add_client_first_open sample.counting 5 0 8 "bob" sample.served
           sample.served_game sample.bob_joined).
  - vm_compute. reflexivity.
  - vm_compute. reflexivity.
  - constructor.
  - vm_compute. reflexivity.
Defined.

Lemma server_add_client_new_game_witness :
  server.add_client sample.counting 2 7 "alice" (Build_World server.new 0 []) =
  Ok tt (Build_World
           {| server.games := [lone_game 0 7 "alice"];
              server.clients := <[7 := 0]> ∅ |} 0 []).
Proof.
  apply (server_add_client_new_game sample.counting 0 7 "alice"
           (Build_World server.new 0 [])).
  constructor.
Defined.

Lemma connect_then_disconnect_witness :
  (server.add_client sample.counting 2 7 "alice" ≫= λ _,
   server.client_disconnected 7) (Build_World server.new 0 []) =
  Ok tt (Build_World (server.set_games [fresh_game 0] server.new) 0 []).
Proof.
  apply (connect_then_disconnect sample.counting 0 7 "alice"
           (Build_World server.new 0 [])).
  - constructor.
  - reflexivity.
Defined.

Lemma server_routing_witness :
  server.games (st sample.served) !! 0 = Some sample.served_game ∧
  id sample.served_game = 0 ∧
  length (clients sample.served_game) + length (waiting sample.served_game) ≤ MAX_PLAYERS.
Proof.
  assert (E : server.games (st sample.served) !! 0 = Some sample.served_game)
    by (vm_compute; reflexivity).
  split; [exact E|].
  destruct (server_routing sample.counting sample.served served_reachable) as [_ H].
  exact (H 0 sample.served_game E).
Defined.

Lemma server_add_tracks_routed_witness :
  ∃ g, server.games (st sample.served) !! 0 = Some g ∧
    server.add_tracks 7 [sample.t1] sample.served =
    Ok tt (Build_World
             (server.set_games
                (<[0 := set_all_tracks (merge_tracks (all_tracks g) [sample.t1]) g]>
                   (server.games (st sample.served))) (st sample.served))
             (rpos sample.served) (outbox sample.served)).
Proof.
  apply (server_add_tracks_routed sample.counting 7 0 [sample.t1] sample.served).
  - apply served_reachable.
  - vm_compute. reflexivity.
Defined.

Lemma server_unmapped_raises_witness :
  server.received_answer 8 0%Z (1 # 2) sample.served = Raise KeyError sample.served ∧
  server.add_tracks 8 [sample.t1] sample.served = Raise KeyError sample.served.
Proof.
  apply (server_unmapped_raises 8 0%Z (1 # 2) [sample.t1] sample.served).
  vm_compute. reflexivity.
Defined.

Lemma generate_choices_few_artists_witness :
  generate_choices sample.counting 9 sample.t1 sample.same_artist = Diverge.
Proof.
  destruct (generate_choices_few_artists sample.counting 9 sample.t1 sample.same_artist)
    as [_ H].
  - change (all_tracks (st sample.same_artist)) with (sample.album). apply elem_of_cons. left. reflexivity.
  - vm_compute. lia.
  - apply H. unfold enough_pool. vm_compute. lia.
Defined.
